(** * cyclejs-soundmanager-driver: the command/event adapter

    A shallow embedding of [src/index.js] (the Rx driver) and of the
    dispatcher of its two later variants (the xstream source and the
    compiled Rx build, which add [performGlobalCommand]).

    - JavaScript numbers are IEEE 754 doubles: they are modelled by Rocq's
      primitive [float].
    - The module-level object [sounds] is a plain object: its own
      properties are a finite map from identifiers to handles (a handle is
      a reference to an object owned by the engine), and a name that is not
      an own property is looked up in [Object.prototype]
      ([object_prototype_names]). The identifiers the engine makes are
      taken not to be [__proto__], whose assignment would not make an own
      property.
    - SoundManager2 is an external collaborator: it is an interface
      ([Engine]) of which the adapter only uses the entry points it calls.
      Every entry point that is invoked is appended to a log ([calls]), and
      the callbacks the engine runs while it executes an entry point are
      returned by that entry point, in the order they run.
    - The Rx observer is the list of the [onNext]/[onError] calls made on
      it ([sent]); what subscribers receive is [delivered]. *)

From Stdlib Require Import Floats.
From stdpp Require Import gmap strings list pretty.

Local Open Scope string_scope.
Local Open Scope list_scope.

(** ** JavaScript values used by the adapter *)

(** The [scope] property of a command, a handle or an event: absent, an
    array of labels, or a string (the one non-array shape for which
    [String.prototype.concat] keeps [isolateSink] well defined). *)
Inductive scope_val :=
  | ScUndefined
  | ScArray (labels : list string)
  | ScString (s : string).

(** [if (x)] on an optional number: [undefined], [0], [-0] and [NaN] are
    falsy. *)
Definition truthy_number (x : option float) : bool :=
  match x with
  | Some v => negb (PrimFloat.is_zero v || PrimFloat.is_nan v)
  | None => false
  end.

(** [if (x)] on an optional string: [undefined] and the empty string are falsy. *)
Definition truthy_string (x : option string) : bool :=
  match x with
  | Some s => negb (String.eqb s EmptyString)
  | None => false
  end.

(** [Array.isArray(x)] *)
Definition isArray (x : scope_val) : bool :=
  match x with ScArray _ => true | _ => false end.

(** [(x || []).concat(label)] *)
Definition or_empty_concat (x : scope_val) (label : string) : scope_val :=
  match x with
  | ScUndefined => ScArray [label]
  | ScArray l => ScArray (l ++ [label])
  | ScString s => if String.eqb s EmptyString then ScArray [label] else ScString (s +:+ label)
  end.

(** [x.indexOf(label) !== -1] on an array *)
Definition contains (l : list string) (label : string) : bool :=
  bool_decide (label ∈ l).

(** A call that passes one argument more than the callee has parameters:
    JavaScript evaluates it and drops it. *)
Definition call_with_extra {A B X : Type} (f : A → B) (a : A) (_ : X) : B := f a.

(** The names a plain object inherits from [Object.prototype]. All are
    functions but [__proto__], which reads as [Object.prototype] itself:
    every one of them is truthy. *)
Definition object_prototype_names : list string :=
  ["constructor"; "hasOwnProperty"; "isPrototypeOf"; "propertyIsEnumerable";
   "toLocaleString"; "toString"; "valueOf"; "__proto__";
   "__defineGetter__"; "__defineSetter__"; "__lookupGetter__"; "__lookupSetter__"].

(** ** Data model *)

Record Command := {
  cmd_id : option string;
  cmd_src : option string;
  cmd_action : option string;
  cmd_position : option float;
  cmd_relative : option float;
  cmd_progress : option float;
  cmd_volume : option float;
  cmd_scope : scope_val
}.

(** The properties of an engine sound object that the adapter reads. *)
Record SMSound := {
  s_id : string;
  s_position : float;
  s_duration : float;
  s_muted : bool;
  s_volume : float;
  s_paused : bool;
  s_playState : Z;
  s_readyState : Z;
  s_url : string
}.

(** A sound object as the adapter sees it: the engine's properties and the
    [scope] property the adapter attaches. *)
Record sound := {
  sm : SMSound;
  scope : scope_val
}.

Record sound_event := {
  ev_id : string;
  ev_event : string;
  ev_position : float;
  ev_duration : float;
  ev_muted : bool;
  ev_volume : float;
  ev_paused : bool;
  ev_playing : bool;
  ev_src : string;
  ev_scope : scope_val
}.

(** What [obs.onNext] receives: the object built by [soundEvent], or the
    object built by [soundError] ([error: true], [id] possibly [null]), or
    the object [soundEvent] builds from an object that has none of the
    properties it reads (a member of [Object.prototype]): [event] is the
    kind, [playing] is [false], every other property is [undefined]. *)
Inductive event :=
  | SoundEvent (e : sound_event)
  | ErrorEvent (id : option string) (sc : scope_val) (src : string)
  | BareEvent (kind : string).

(** The object literal of [soundEvent]. *)
Definition event_object (sound : sound) (event : string) : sound_event :=
  {| ev_id := s_id (sm sound);
     ev_event := event;
     ev_position := s_position (sm sound);
     ev_duration := s_duration (sm sound);
     ev_muted := s_muted (sm sound);
     ev_volume := if s_muted (sm sound) then 0%float else s_volume (sm sound);
     ev_paused := s_paused (sm sound);
     ev_playing := negb (s_paused (sm sound)) && Z.eqb (s_playState (sm sound)) 1;
     ev_src := s_url (sm sound);
     ev_scope := scope sound |}.

Definition event_scope (e : event) : scope_val :=
  match e with
  | SoundEvent ev => ev_scope ev
  | ErrorEvent _ sc _ => sc
  | BareEvent _ => ScUndefined
  end.

Definition event_id (e : event) : option string :=
  match e with
  | SoundEvent ev => Some (ev_id ev)
  | ErrorEvent i _ _ => i
  | BareEvent _ => None
  end.

Definition event_kind (e : event) : option string :=
  match e with
  | SoundEvent ev => Some (ev_event ev)
  | ErrorEvent _ _ _ => None
  | BareEvent k => Some k
  end.


Inductive js_error :=
  | Error (msg : string)
  | TypeError (msg : string).

(** The two errors the adapter makes itself. *)
Definition InvalidCommand : js_error := Error "Sound src must be set".
Definition SoundNotFound : js_error := Error "Could not find sound".

Inductive notification :=
  | onNext (e : event)
  | onError (err : js_error).

(** What the subscribers of an Rx observable receive of the calls made on
    its observer: everything up to and including the first [onError]. *)
Fixpoint delivered (ns : list notification) : list notification :=
  match ns with
  | [] => []
  | onNext e :: rest => onNext e :: delivered rest
  | onError err :: _ => [onError err]
  end.

Definition terminated (ns : list notification) : bool :=
  existsb (λ n, match n with onError _ => true | onNext _ => false end) ns.

(** ** The engine interface *)

Definition handle := nat.

(** What [sounds[id]] finds when it is truthy: a handle, or the member of
    [Object.prototype] of that name. *)
Inductive found :=
  | Handle (h : handle)
  | Inherited (member : string).

Inductive callback :=
  | onload | onfinish | onpause | onplay | onresume | onstop | whileplaying
  | onfailure (err : string).

(** One run of a callback registered in [createSound]: the handle it was
    registered for ([thisSound]) and the properties of that object at the
    moment the callback runs. *)
Record fired := {
  f_handle : handle;
  f_callback : callback;
  f_sound : SMSound
}.

Inductive call :=
  | CreateSound (url : string) (autoPlay autoLoad : bool)
  | PauseAll
  | Global (name : string)
  | SetPosition (h : handle) (x : float)
  | SetVolume (h : handle) (x : float)
  | Method (h : handle) (name : string).

(** The entry points of SoundManager2 used by the adapter. A dynamic call
    ([soundManager[name]()], [sound[name]()]) is [None] when the object has
    no function of that name, which in JavaScript is a [TypeError] at the
    call site. [sm_createSound] returns no handle when the engine refuses
    to make the sound; it runs no callback of the sound it is making.

    [inherited_call member name] is not of SoundManager2 but of the
    JavaScript built-ins: what [m[name]()] throws, if it does not
    complete, for [m] the member of [Object.prototype] called [member] (a
    [TypeError] when [m] has no function of that name, or what the built-in
    throws). Such a call has no argument and changes nothing the adapter
    reads. *)
Class Engine (E : Type) := {
  inherited_call : string → string → option js_error;
  sm_createSound : string → E → E * option handle;
  sm_pauseAll : E → E * list fired;
  sm_dynamic : string → E → option (E * list fired);
  sound_setPosition : handle → float → E → E * list fired;
  sound_setVolume : handle → float → E → E * list fired;
  sound_dynamic : handle → string → E → option (E * list fired);
  sound_view : handle → E → SMSound
}.

(** ** The adapter *)

Section Adapter.
Context {E : Type} `{Engine E}.

(** The state the adapter's code runs on: the engine, the module-level
    registry [sounds], the [scope] property attached to each handle, the
    calls made on the observer and the engine entry points invoked. *)
Record state := {
  engine : E;
  sounds : gmap string handle;
  tags : gmap handle scope_val;
  sent : list notification;
  calls : list call
}.

Inductive completion (A : Type) :=
  | Normal (a : A)
  | Throw (err : js_error).
Global Arguments Normal {A} a.
Global Arguments Throw {A} err.

(** A JavaScript statement: it changes the state and either completes or
    throws; what it did before throwing stays done. *)
Definition M (A : Type) : Type := state → state * completion A.

Definition ret {A} (a : A) : M A := λ st, (st, Normal a).

Definition bind {A B} (m : M A) (k : A → M B) : M B :=
  λ st, match m st with
        | (st', Normal a) => k a st'
        | (st', Throw err) => (st', Throw err)
        end.

Definition throw {A} (err : js_error) : M A := λ st, (st, Throw err).

Definition when (b : bool) (m : M unit) : M unit := if b then m else ret tt.

Notation "'let*' x ':=' m 'in' k" := (bind m (λ x, k))
  (at level 10, x name, m at level 100, k at level 200).
Notation "m1 >> m2" := (bind m1 (λ _, m2))
  (at level 100, m2 at level 200, right associativity).

(** *** The observer *)

Definition obs_onNext (e : event) : M unit :=
  λ st, ({| engine := engine st; sounds := sounds st; tags := tags st;
            sent := sent st ++ [onNext e]; calls := calls st |}, Normal tt).

Definition obs_onError (err : js_error) : M unit :=
  λ st, ({| engine := engine st; sounds := sounds st; tags := tags st;
            sent := sent st ++ [onError err]; calls := calls st |}, Normal tt).

(** *** Sound objects *)

(** The object behind a handle, read now. *)
Definition deref (h : handle) : M sound :=
  λ st, (st, Normal {| sm := sound_view h (engine st);
                       scope := default ScUndefined (tags st !! h) |}).

(** [thisSound] inside a callback: the engine's properties as they are
    when the callback runs, and the attached [scope]. *)
Definition this_sound (f : fired) : M sound :=
  λ st, (st, Normal {| sm := f_sound f;
                       scope := default ScUndefined (tags st !! f_handle f) |}).

(** [thisSound.scope = command.scope] *)
Definition set_scope (h : handle) (sc : scope_val) : M unit :=
  λ st, ({| engine := engine st; sounds := sounds st;
            tags := <[h := sc]> (tags st);
            sent := sent st; calls := calls st |}, Normal tt).

(** [sounds[thisSound.id] = thisSound] *)
Definition register (h : handle) : M unit :=
  λ st, ({| engine := engine st;
            sounds := <[s_id (sound_view h (engine st)) := h]> (sounds st);
            tags := tags st; sent := sent st; calls := calls st |}, Normal tt).

(** [sounds[id]]; an [undefined] key is the property name ["undefined"].
    An own property of [sounds] is a handle; a name that is not an own
    property is found in [Object.prototype] when it is one of its names. *)
Definition lookup_sound (id : option string) : M (option found) :=
  λ st, (st, Normal
    match sounds st !! default "undefined" id with
    | Some h => Some (Handle h)
    | None =>
        if bool_decide (default "undefined" id ∈ object_prototype_names)
        then Some (Inherited (default "undefined" id))
        else None
    end).

(** [m[name]()] on a member of [Object.prototype]. *)
Definition call_inherited (member name : string) : M unit :=
  match inherited_call member name with
  | None => ret tt
  | Some err => throw err
  end.

(** *** src/index.js *)

Definition soundEvent (sound : sound) (event : string) : M unit :=
  obs_onNext (SoundEvent (event_object sound event)).

(** [soundError] reads [id], [scope] and [url] of its argument, which is a
    sound object or the literal built when creation fails. *)
Definition soundError (id : option string) (sc : scope_val) (url : string) : M unit :=
  obs_onNext (ErrorEvent id sc url).

(** The callbacks passed to [soundManager.createSound]. *)
Definition run_callback (f : fired) : M unit :=
  let* thisSound := this_sound f in
  match f_callback f with
  | onload =>
      when (Z.eqb (s_readyState (sm thisSound)) 3) (soundEvent thisSound "load") >>
      when (Z.eqb (s_readyState (sm thisSound)) 2)
        (soundError (Some (s_id (sm thisSound))) (scope thisSound) (s_url (sm thisSound)))
  | onfinish => soundEvent thisSound "finish"
  | onpause => soundEvent thisSound "pause"
  | onplay => soundEvent thisSound "play"
  | onresume => soundEvent thisSound "play"
  | onstop => soundEvent thisSound "stop"
  | whileplaying => soundEvent thisSound "playing"
  | onfailure err => call_with_extra (soundEvent thisSound) "failure" err
  end.

Fixpoint run_callbacks (fs : list fired) : M unit :=
  match fs with
  | [] => ret tt
  | f :: rest => run_callback f >> run_callbacks rest
  end.

(** An engine entry point: it is logged, the engine moves on, and the
    callbacks it ran have run. *)
Definition engine_call (c : call) (op : E → E * list fired) : M unit :=
  λ st, let '(e', fs) := op (engine st) in
        run_callbacks fs {| engine := e'; sounds := sounds st; tags := tags st;
                            sent := sent st; calls := calls st ++ [c] |}.

(** [obj[name]()] *)
Definition dynamic_call (c : call) (name : string)
    (op : E → option (E * list fired)) : M unit :=
  λ st, match op (engine st) with
        | Some r => engine_call c (λ _, r) st
        | None => throw (TypeError (name +:+ " is not a function")) st
        end.

Definition soundManager_createSound (url : string) (autoPlay autoLoad : bool)
    : M (option handle) :=
  λ st, let '(e', r) := sm_createSound url (engine st) in
        ({| engine := e'; sounds := sounds st; tags := tags st; sent := sent st;
            calls := calls st ++ [CreateSound url autoPlay autoLoad] |}, Normal r).

Definition createSound (command : Command) : M unit :=
  if negb (truthy_string (cmd_src command)) then throw InvalidCommand
  else
    let src := default EmptyString (cmd_src command) in
    let* thisSound := soundManager_createSound src false true in
    match thisSound with
    | Some h => set_scope h (cmd_scope command) >> register h
    | None => soundError None (cmd_scope command) src
    end.

Definition setRelativePosition (h : handle) (relative : float) : M unit :=
  let* sound := deref h in
  let newPosition := (s_position (sm sound) + relative)%float in
  engine_call (SetPosition h newPosition) (sound_setPosition h newPosition).

Definition performCommand (command : Command) : M unit :=
  let id := cmd_id command in
  let position := cmd_position command in
  let relative := cmd_relative command in
  let progress := cmd_progress command in
  let action := cmd_action command in
  let volume := cmd_volume command in
  let* sound := lookup_sound id in
  match sound with
  | None => obs_onError SoundNotFound
  | Some (Inherited member) =>
      (* a member of Object.prototype has no setPosition and no setVolume,
         and none of the properties soundEvent reads *)
      when (truthy_number position)
        (throw (TypeError "sound.setPosition is not a function")) >>
      when (truthy_number relative)
        (throw (TypeError "sound.setPosition is not a function")) >>
      when (truthy_number progress)
        (throw (TypeError "sound.setPosition is not a function")) >>
      when (truthy_string action)
        (let a := default EmptyString action in
         when (bool_decide (a ∈ ["play"; "resume"]))
           (engine_call PauseAll sm_pauseAll) >>
         call_inherited member a) >>
      when (truthy_number volume)
        (throw (TypeError "sound.setVolume is not a function")) >>
      obs_onNext (BareEvent "update")
  | Some (Handle h) =>
      when (truthy_number position)
        (let p := default 0%float position in
         engine_call (SetPosition h p) (sound_setPosition h p)) >>
      when (truthy_number relative)
        (setRelativePosition h (default 0%float relative)) >>
      when (truthy_number progress)
        (let* s := deref h in
         let p := (s_duration (sm s) * default 0%float progress)%float in
         engine_call (SetPosition h p) (sound_setPosition h p)) >>
      when (truthy_string action)
        (let a := default EmptyString action in
         when (bool_decide (a ∈ ["play"; "resume"]))
           (engine_call PauseAll sm_pauseAll) >>
         dynamic_call (Method h a) a (sound_dynamic h a)) >>
      when (truthy_number volume)
        (let v := default 0%float volume in
         engine_call (SetVolume h v) (sound_setVolume h v)) >>
      let* s := deref h in
      soundEvent s "update"
  end.

(** The subscriber of the command stream in [src/index.js]. *)
Definition commandExecutor (command : Command) : M unit :=
  if truthy_string (cmd_id command) then performCommand command
  else createSound command.

(** *** The later variants: a third branch *)

Definition performGlobalCommand (command : Command) : M unit :=
  let a := default EmptyString (cmd_action command) in
  dynamic_call (Global a) a (sm_dynamic a).

(** The subscriber of the command stream in the xstream source and in the
    compiled Rx build. Their [performCommand] and [createSound] are their
    own, hence parameters. *)
Definition commandExecutor_global (performCommand' createSound' : Command → M unit)
    (command : Command) : M unit :=
  if truthy_string (cmd_id command) then performCommand' command
  else if truthy_string (cmd_action command) then performGlobalCommand command
  else createSound' command.

End Adapter.

Arguments state E : clear implicits.
Arguments M E A : clear implicits.

(** ** Scope isolation

    A stream is the list of the values it has carried so far. *)

(** [{...cmd, scope: (cmd.scope || []).concat(scope)}] *)
Definition scoped (scope : string) (cmd : Command) : Command :=
  {| cmd_id := cmd_id cmd;
     cmd_src := cmd_src cmd;
     cmd_action := cmd_action cmd;
     cmd_position := cmd_position cmd;
     cmd_relative := cmd_relative cmd;
     cmd_progress := cmd_progress cmd;
     cmd_volume := cmd_volume cmd;
     cmd_scope := or_empty_concat (cmd_scope cmd) scope |}.

Definition isolateSink (sink : list Command) (scope : string) : list Command :=
  map (scoped scope) sink.

(** [Array.isArray(evt.scope) && evt.scope.indexOf(scope) !== -1] *)
Definition in_scope (scope : string) (evt : event) : bool :=
  isArray (event_scope evt) &&
  match event_scope evt with
  | ScArray l => contains l scope
  | _ => false
  end.

Definition isolateSource (source : list event) (scope : string) : list event :=
  List.filter (in_scope scope) source.

(** [source.isolateSource(s1).isolateSource(s2)...]: the filtered stream
    carries [isolateSource] itself. *)
Definition isolateSource_nested (source : list event) (scopes : list string) : list event :=
  fold_left isolateSource scopes source.

Definition isolateSink_nested (sink : list Command) (scopes : list string) : list Command :=
  fold_left isolateSink scopes sink.

(** One command through the nested sinks, outermost label last. *)
Definition scoped_nested (scopes : list string) (cmd : Command) : Command :=
  fold_left (λ c s, scoped s c) scopes cmd.

(** The events among the calls made on the observer. *)
Definition events_of (ns : list notification) : list event :=
  omap (λ n, match n with onNext e => Some e | onError _ => None end) ns.

(** ** A test double of the engine

    Handles are positions in a list of sound objects. The engine makes a
    sound only when it is [fake_ok]; its identifiers are ["sound0"],
    ["sound1"], ... Pausing, playing, resuming and stopping run the
    matching callback at once. *)

Record fake_engine := {
  fake_ok : bool;
  fake_sounds : list SMSound
}.

Definition fake_new_sound (n : nat) (url : string) : SMSound :=
  {| s_id := "sound" +:+ pretty n; s_position := 0; s_duration := 0; s_muted := false;
     s_volume := 100; s_paused := false; s_playState := 0; s_readyState := 1;
     s_url := url |}.

Definition fake_default : SMSound := fake_new_sound 0 EmptyString.

Definition fake_is_playing (s : SMSound) : bool :=
  negb (s_paused s) && Z.eqb (s_playState s) 1.

Definition fake_with_state (paused : bool) (playState : Z) (s : SMSound) : SMSound :=
  {| s_id := s_id s; s_position := s_position s; s_duration := s_duration s;
     s_muted := s_muted s; s_volume := s_volume s; s_paused := paused;
     s_playState := playState; s_readyState := s_readyState s; s_url := s_url s |}.

Definition fake_with_position (x : float) (s : SMSound) : SMSound :=
  {| s_id := s_id s; s_position := x; s_duration := s_duration s;
     s_muted := s_muted s; s_volume := s_volume s; s_paused := s_paused s;
     s_playState := s_playState s; s_readyState := s_readyState s; s_url := s_url s |}.

Definition fake_with_volume (x : float) (s : SMSound) : SMSound :=
  {| s_id := s_id s; s_position := s_position s; s_duration := s_duration s;
     s_muted := s_muted s; s_volume := x; s_paused := s_paused s;
     s_playState := s_playState s; s_readyState := s_readyState s; s_url := s_url s |}.

Definition fake_view (h : handle) (e : fake_engine) : SMSound :=
  nth h (fake_sounds e) fake_default.

Definition fake_update (h : handle) (f : SMSound → SMSound) (e : fake_engine) : fake_engine :=
  {| fake_ok := fake_ok e; fake_sounds := alter f h (fake_sounds e) |}.

Definition fake_createSound (url : string) (e : fake_engine) : fake_engine * option handle :=
  if fake_ok e then
    let h := length (fake_sounds e) in
    ({| fake_ok := true; fake_sounds := fake_sounds e ++ [fake_new_sound h url] |}, Some h)
  else (e, None).

(** Pause every sound that is playing, first to last. *)
Fixpoint fake_pause_from (h : handle) (ss : list SMSound) : list SMSound * list fired :=
  match ss with
  | [] => ([], [])
  | s :: rest =>
      let '(rest', fs) := fake_pause_from (S h) rest in
      if fake_is_playing s then
        let s' := fake_with_state true (s_playState s) s in
        (s' :: rest', {| f_handle := h; f_callback := onpause; f_sound := s' |} :: fs)
      else (s :: rest', fs)
  end.

Definition fake_pauseAll (e : fake_engine) : fake_engine * list fired :=
  let '(ss, fs) := fake_pause_from 0 (fake_sounds e) in
  ({| fake_ok := fake_ok e; fake_sounds := ss |}, fs).

Definition fake_transition (h : handle) (paused : bool) (playState : Z) (cb : callback)
    (e : fake_engine) : fake_engine * list fired :=
  let s' := fake_with_state paused playState (fake_view h e) in
  (fake_update h (λ _, s') e, [{| f_handle := h; f_callback := cb; f_sound := s' |}]).

Definition fake_sound_dynamic (h : handle) (name : string) (e : fake_engine)
    : option (fake_engine * list fired) :=
  if String.eqb name "play" then Some (fake_transition h false 1 onplay e)
  else if String.eqb name "resume" then Some (fake_transition h false 1 onresume e)
  else if String.eqb name "pause" then Some (fake_transition h true 1 onpause e)
  else if String.eqb name "stop" then Some (fake_transition h false 0 onstop e)
  else None.

Definition fake_sm_dynamic (name : string) (e : fake_engine)
    : option (fake_engine * list fired) :=
  if String.eqb name "pauseAll" then Some (fake_pauseAll e) else None.

(** The functions of [Object.prototype] that complete on every object when
    they are called without argument; for another name the double reports
    a missing function. *)
Definition fake_inherited_call (member name : string) : option js_error :=
  if bool_decide (name ∈ ["toString"; "toLocaleString"; "valueOf"; "hasOwnProperty";
                          "isPrototypeOf"; "propertyIsEnumerable"])
  then None
  else Some (TypeError (name +:+ " is not a function")).

#[export] Instance fake_Engine : Engine fake_engine := {|
  inherited_call := fake_inherited_call;
  sm_createSound := fake_createSound;
  sm_pauseAll := fake_pauseAll;
  sm_dynamic := fake_sm_dynamic;
  sound_setPosition := λ h x e, (fake_update h (fake_with_position x) e, []);
  sound_setVolume := λ h x e, (fake_update h (fake_with_volume x) e, []);
  sound_dynamic := fake_sound_dynamic;
  sound_view := fake_view
|}.

(** The adapter before any command, over an engine that is ready. *)
Definition fake_init (ok : bool) : state fake_engine :=
  {| engine := {| fake_ok := ok; fake_sounds := [] |};
     sounds := ∅; tags := ∅; sent := []; calls := [] |}.

(** Run the subscriber over commands, stopping at the first throw. *)
Fixpoint run_commands {E : Type} (exec : Command → M E unit) (cmds : list Command)
    (st : state E) : state E * completion unit :=
  match cmds with
  | [] => (st, Normal tt)
  | c :: rest =>
      match exec c st with
      | (st', Normal _) => run_commands exec rest st'
      | (st', Throw err) => (st', Throw err)
      end
  end.

Definition cmd_empty : Command :=
  {| cmd_id := None; cmd_src := None; cmd_action := None; cmd_position := None;
     cmd_relative := None; cmd_progress := None; cmd_volume := None;
     cmd_scope := ScUndefined |}.

Definition cmd_load (src : string) : Command :=
  {| cmd_id := None; cmd_src := Some src; cmd_action := None; cmd_position := None;
     cmd_relative := None; cmd_progress := None; cmd_volume := None;
     cmd_scope := ScUndefined |}.

Definition cmd_action_on (id action : string) : Command :=
  {| cmd_id := Some id; cmd_src := None; cmd_action := Some action; cmd_position := None;
     cmd_relative := None; cmd_progress := None; cmd_volume := None;
     cmd_scope := ScUndefined |}.

Definition cmd_global (action : string) : Command :=
  {| cmd_id := None; cmd_src := None; cmd_action := Some action; cmd_position := None;
     cmd_relative := None; cmd_progress := None; cmd_volume := None;
     cmd_scope := ScUndefined |}.

(** ** What the callbacks send

    The events one run of a callback puts on the observer, given the
    [scope] attached to the handles. [run_callback_sends] relates it to
    [run_callback]. *)

Definition callback_events (tg : gmap handle scope_val) (f : fired) : list event :=
  let thisSound := {| sm := f_sound f; scope := default ScUndefined (tg !! f_handle f) |} in
  match f_callback f with
  | onload =>
      (if Z.eqb (s_readyState (f_sound f)) 3
       then [SoundEvent (event_object thisSound "load")] else []) ++
      (if Z.eqb (s_readyState (f_sound f)) 2
       then [ErrorEvent (Some (s_id (f_sound f))) (scope thisSound) (s_url (f_sound f))]
       else [])
  | onfinish => [SoundEvent (event_object thisSound "finish")]
  | onpause => [SoundEvent (event_object thisSound "pause")]
  | onplay | onresume => [SoundEvent (event_object thisSound "play")]
  | onstop => [SoundEvent (event_object thisSound "stop")]
  | whileplaying => [SoundEvent (event_object thisSound "playing")]
  | onfailure _ => [SoundEvent (event_object thisSound "failure")]
  end.

Definition callbacks_events (tg : gmap handle scope_val) (fs : list fired) : list event :=
  flat_map (callback_events tg) fs.

Definition is_kind (k : string) (e : event) : bool :=
  match event_kind e with
  | Some k' => String.eqb k' k
  | None => false
  end.


(** ** The update path as the specification words it

    The fields of a command that are present and truthy, in the fixed
    order: [position], [relative], [progress], [action], [volume]; and for
    each the engine entry points it stands for. *)

Inductive update_field :=
  | FPosition (x : float)
  | FRelative (r : float)
  | FProgress (g : float)
  | FAction (a : string)
  | FVolume (v : float).

Definition seek_fields (command : Command) : list update_field :=
  (if truthy_number (cmd_position command)
   then [FPosition (default 0%float (cmd_position command))] else []) ++
  (if truthy_number (cmd_relative command)
   then [FRelative (default 0%float (cmd_relative command))] else []) ++
  (if truthy_number (cmd_progress command)
   then [FProgress (default 0%float (cmd_progress command))] else []).

Definition present_fields (command : Command) : list update_field :=
  seek_fields command ++
  (if truthy_string (cmd_action command)
   then [FAction (default EmptyString (cmd_action command))] else []) ++
  (if truthy_number (cmd_volume command)
   then [FVolume (default 0%float (cmd_volume command))] else []).

(** The outcome of engine entry points run one after the other: the
    entry points, the engine they leave, the callbacks they ran. *)
Record engine_run (E : Type) := {
  run_calls : list call;
  run_engine : E;
  run_fired : list fired
}.
Arguments run_calls {E} _.
Arguments run_engine {E} _.
Arguments run_fired {E} _.

Section UpdatePath.
Context {E : Type} `{Engine E}.

Definition run_start (e : E) : engine_run E :=
  {| run_calls := []; run_engine := e; run_fired := [] |}.

Definition run_then (c : call) (op : E → E * list fired) (r : engine_run E) : engine_run E :=
  let '(e', fs) := op (run_engine r) in
  {| run_calls := run_calls r ++ [c]; run_engine := e'; run_fired := run_fired r ++ fs |}.

(** One field applied to the handle: an absolute position; the current
    position plus the offset; the duration times the fraction; the action
    as a method of the handle, after the engine's pause-all when it is
    [play] or [resume]; the volume. The action is meant for a handle that
    has the method ([has_method]); otherwise the entry leaves the engine
    as it is. *)
Definition apply_field (h : handle) (r : engine_run E) (fld : update_field) : engine_run E :=
  match fld with
  | FPosition x => run_then (SetPosition h x) (sound_setPosition h x) r
  | FRelative d =>
      let x := (s_position (sound_view h (run_engine r)) + d)%float in
      run_then (SetPosition h x) (sound_setPosition h x) r
  | FProgress g =>
      let x := (s_duration (sound_view h (run_engine r)) * g)%float in
      run_then (SetPosition h x) (sound_setPosition h x) r
  | FAction a =>
      let r' := if bool_decide (a ∈ ["play"; "resume"])
                then run_then PauseAll sm_pauseAll r else r in
      run_then (Method h a) (λ e, default (e, []) (sound_dynamic h a e)) r'
  | FVolume v => run_then (SetVolume h v) (sound_setVolume h v) r
  end.

Definition apply_fields (h : handle) (flds : list update_field) (e : E) : engine_run E :=
  fold_left (apply_field h) flds (run_start e).

(** The state an update command leaves, by the specification: the fields
    applied in order, then one [update] event for the handle as it is. *)
Definition updated (h : handle) (command : Command) (st : state E) : state E :=
  let r := apply_fields h (present_fields command) (engine st) in
  let s := {| sm := sound_view h (run_engine r);
              scope := default ScUndefined (tags st !! h) |} in
  {| engine := run_engine r;
     sounds := sounds st;
     tags := tags st;
     sent := sent st ++ map onNext (callbacks_events (tags st) (run_fired r))
               ++ [onNext (SoundEvent (event_object s "update"))];
     calls := calls st ++ run_calls r |}.

(** The engine run just before the action's method is invoked. *)
Definition before_method (h : handle) (command : Command) (r : engine_run E) : engine_run E :=
  let r3 := fold_left (apply_field h) (seek_fields command) r in
  if bool_decide (default EmptyString (cmd_action command) ∈ ["play"; "resume"])
  then run_then PauseAll sm_pauseAll r3 else r3.

(** The handle has a function of that name. *)
Definition has_method (h : handle) (a : string) : Prop :=
  ∀ e : E, is_Some (sound_dynamic h a e).

(** The engine has a function of that name. *)
Definition has_global (a : string) : Prop :=
  ∀ e : E, is_Some (sm_dynamic a e).

(** The registry entry a successful creation makes. *)
Definition created (h : handle) (command : Command) (e' : E) (st : state E) : state E :=
  {| engine := e';
     sounds := <[s_id (sound_view h e') := h]> (sounds st);
     tags := <[h := cmd_scope command]> (tags st);
     sent := sent st;
     calls := calls st ++ [CreateSound (default EmptyString (cmd_src command)) false true] |}.

End UpdatePath.

Definition sending {E : Type} (ns : list notification) (st : state E) : state E :=
  {| engine := engine st; sounds := sounds st; tags := tags st;
     sent := sent st ++ ns; calls := calls st |}.

(** The events sent between two states of the adapter. *)
Definition new_events {E : Type} (st st' : state E) : list event :=
  events_of (drop (length (sent st)) (sent st')).

(** The adapter's state once the engine entry points of [r] have run. *)
Definition state_of_run {E : Type} (st : state E) (r : engine_run E) : state E :=
  {| engine := run_engine r; sounds := sounds st; tags := tags st;
     sent := sent st ++ map onNext (callbacks_events (tags st) (run_fired r));
     calls := calls st ++ run_calls r |}.

(** ** Two loaded sounds

    The adapter after two sounds were loaded and the first one is playing. *)

Definition demo_sound (n : nat) (url : string) (playing : bool) : SMSound :=
  {| s_id := "sound" +:+ pretty n; s_position := 100; s_duration := 2000;
     s_muted := false; s_volume := 100; s_paused := false;
     s_playState := if playing then 1 else 0; s_readyState := 3; s_url := url |}.

Definition demo_state : state fake_engine :=
  {| engine := {| fake_ok := true;
                  fake_sounds := [demo_sound 0 "a.mp3" true; demo_sound 1 "b.mp3" false] |};
     sounds := <["sound0" := 0]> (<["sound1" := 1]> ∅);
     tags := <[0 := ScArray ["x"]]> (<[1 := ScArray ["x"]]> ∅);
     sent := [];
     calls := [] |}.

(** An update command with every field. *)
Definition cmd_all_fields : Command :=
  {| cmd_id := Some "sound1"; cmd_src := None; cmd_action := Some "play";
     cmd_position := Some 500%float; cmd_relative := Some 250%float;
     cmd_progress := Some 0.5%float; cmd_volume := Some 80%float;
     cmd_scope := ScUndefined |}.

(** ** Runs of the adapter

    What happens to the adapter, one thing after the other: a command is
    dispatched, or the engine runs a callback. A dispatch that throws
    leaves the state it reached. *)


Section Steps.
Context {E : Type} `{Engine E}.




End Steps.






(** The observer only receives more, and the events among it satisfy [P]. *)
Definition emits {E : Type} (P : event → Prop) (st st' : state E) : Prop :=
  ∃ ns, sent st' = sent st ++ ns ∧ Forall P (events_of ns).

(** ** The older compiled build

    [lib/index.js], the build kept beside [src/index.js]: [createSound]
    has no guard on the engine's answer and returns the handle,
    [performCommand] has no [relative] field, and the observable's disposal
    reboots the engine and empties the registry. *)

Section Lib.
Context {E : Type} `{Engine E}.

Local Notation "'let*' x ':=' m 'in' k" := (bind m (λ x, k))
  (at level 10, x name, m at level 100, k at level 200).
Local Notation "m1 >> m2" := (bind m1 (λ _, m2))
  (at level 100, m2 at level 200, right associativity).

(** [thisSound.scope = command.scope] on what the engine returned: in
    strict mode an assignment to a property of a value that is not an
    object throws a [TypeError]. *)
Definition lib_createSound (command : Command) : M E handle :=
  if negb (truthy_string (cmd_src command)) then throw InvalidCommand
  else
    let src := default EmptyString (cmd_src command) in
    let* thisSound := soundManager_createSound src false true in
    match thisSound with
    | Some h => set_scope h (cmd_scope command) >> register h >> ret h
    | None => throw (TypeError "Cannot set property scope")
    end.

Definition lib_performCommand (command : Command) : M E unit :=
  let id := cmd_id command in
  let position := cmd_position command in
  let progress := cmd_progress command in
  let action := cmd_action command in
  let volume := cmd_volume command in
  let* sound := lookup_sound id in
  match sound with
  | None => obs_onError SoundNotFound
  | Some (Inherited member) =>
      when (truthy_number position)
        (throw (TypeError "sound.setPosition is not a function")) >>
      when (truthy_number progress)
        (throw (TypeError "sound.setPosition is not a function")) >>
      when (truthy_string action)
        (let a := default EmptyString action in
         when (bool_decide (a ∈ ["play"; "resume"]))
           (engine_call PauseAll sm_pauseAll) >>
         call_inherited member a) >>
      when (truthy_number volume)
        (throw (TypeError "sound.setVolume is not a function")) >>
      obs_onNext (BareEvent "update")
  | Some (Handle h) =>
      when (truthy_number position)
        (let p := default 0%float position in
         engine_call (SetPosition h p) (sound_setPosition h p)) >>
      when (truthy_number progress)
        (let* s := deref h in
         let p := (s_duration (sm s) * default 0%float progress)%float in
         engine_call (SetPosition h p) (sound_setPosition h p)) >>
      when (truthy_string action)
        (let a := default EmptyString action in
         when (bool_decide (a ∈ ["play"; "resume"]))
           (engine_call PauseAll sm_pauseAll) >>
         dynamic_call (Method h a) a (sound_dynamic h a)) >>
      when (truthy_number volume)
        (let v := default 0%float volume in
         engine_call (SetVolume h v) (sound_setVolume h v)) >>
      let* s := deref h in
      soundEvent s "update"
  end.

Definition lib_commandExecutor (command : Command) : M E unit :=
  if truthy_string (cmd_id command) then lib_performCommand command
  else lib_createSound command >> ret tt.

(** [Object.keys(sounds).forEach(id => delete sounds[id])] *)
Definition clear_sounds : M E unit :=
  λ st, ({| engine := engine st; sounds := ∅; tags := tags st;
            sent := sent st; calls := calls st |}, Normal tt).

(** The function [Observable.create] is given back: [soundManager.reboot()],
    then the registry is emptied. *)
Definition lib_dispose : M E unit :=
  dynamic_call (Global "reboot") "reboot" (sm_dynamic "reboot") >> clear_sounds.

End Lib.

(** The test double with a [reboot] that forgets every sound. *)
Record reb_engine := Reb { reb_base : fake_engine }.

Definition reb_lift (r : fake_engine * list fired) : reb_engine * list fired :=
  (Reb r.1, r.2).

Definition reb_sm_dynamic (name : string) (e : reb_engine)
    : option (reb_engine * list fired) :=
  if String.eqb name "reboot"
  then Some (Reb {| fake_ok := fake_ok (reb_base e); fake_sounds := [] |}, [])
  else reb_lift <$> fake_sm_dynamic name (reb_base e).

Definition reb_Engine : Engine reb_engine := {|
  inherited_call := fake_inherited_call;
  sm_createSound := λ url e,
    let '(b, h) := fake_createSound url (reb_base e) in (Reb b, h);
  sm_pauseAll := λ e, reb_lift (fake_pauseAll (reb_base e));
  sm_dynamic := reb_sm_dynamic;
  sound_setPosition := λ h x e,
    (Reb (fake_update h (fake_with_position x) (reb_base e)), []);
  sound_setVolume := λ h x e,
    (Reb (fake_update h (fake_with_volume x) (reb_base e)), []);
  sound_dynamic := λ h name e, reb_lift <$> fake_sound_dynamic h name (reb_base e);
  sound_view := λ h e, fake_view h (reb_base e)
|}.

Definition reb_init : state reb_engine :=
  {| engine := Reb {| fake_ok := true; fake_sounds := [] |};
     sounds := ∅; tags := ∅; sent := []; calls := [] |}.

(** ** The engine's setup options

    The first statements of [makeAudioDriver]: the default [url] is
    written to [soundManager.setupOptions], then every own key of [options]
    is copied over it. [Object.keys] of [undefined] is a [TypeError]. *)

Inductive js_value :=
  | VUndefined
  | VNull
  | VBool (b : bool)
  | VNum (x : float)
  | VStr (s : string)
  | VRef (address : nat)
  | VInherited (member : string).

Definition swf_url : string := "/node_modules/soundmanager2/swf/".

Definition makeAudioDriver_setupOptions (options : option (gmap string js_value))
    (setupOptions : gmap string js_value) : gmap string js_value * completion unit :=
  let with_url := <["url" := VStr swf_url]> setupOptions in
  match options with
  | None => (with_url, Throw (TypeError "Cannot convert undefined or null to object"))
  | Some o => (map_fold (λ key v acc, <[key := v]> acc) with_url o, Normal tt)
  end.

(** ** The helpers of the test suite *)

(** [a === b]: numbers by IEEE equality, objects and arrays by identity;
    [VInherited] is the member of [Object.prototype] of that name. *)
Definition strict_equal (a b : js_value) : bool :=
  match a, b with
  | VUndefined, VUndefined => true
  | VNull, VNull => true
  | VBool x, VBool y => Bool.eqb x y
  | VNum x, VNum y => PrimFloat.eqb x y
  | VStr x, VStr y => String.eqb x y
  | VRef x, VRef y => Nat.eqb x y
  | VInherited x, VInherited y => String.eqb x y
  | _, _ => false
  end.

(** [obj[key]] on an object literal: an own property, or else the member
    of [Object.prototype] of that name, or else [undefined]. *)
Definition get (obj : gmap string js_value) (key : string) : js_value :=
  match obj !! key with
  | Some v => v
  | None =>
      if bool_decide (key ∈ object_prototype_names) then VInherited key
      else VUndefined
  end.

(** [Object.keys(match).every(key => obj[key] === match[key])] *)
Definition matches (obj match_ : gmap string js_value) : bool :=
  forallb (λ key, strict_equal (get obj key) (get match_ key)) (map_to_list match_).*1.

(** The assertion [<array> to [not] have item satisfying <any>]:
    [expect.fail] throws. *)
Definition have_item_satisfying (flag_not : bool) (subject : list (gmap string js_value))
    (spec : gmap string js_value) : completion unit :=
  let anyMatches := existsb (λ item, matches item spec) subject in
  if anyMatches && flag_not then Throw (Error "an item in {0} satisfied {1}")
  else if negb anyMatches && negb flag_not then Throw (Error "no items in {0} satisfied {1}")
  else Normal tt.

(** ** Invariants of the dispatcher *)

(** What [soundEvent] guarantees of an event: a muted sound is reported
    with volume 0, and a sound reported as playing is not paused. *)
Definition normalized (e : event) : bool :=
  match e with
  | SoundEvent ev =>
      (negb (ev_muted ev) || PrimFloat.Leibniz.eqb (ev_volume ev) 0%float) &&
      (negb (ev_playing ev) || negb (ev_paused ev))
  | ErrorEvent _ _ _ => true
  | BareEvent _ => true
  end.

Definition well_formed (n : notification) : Prop :=
  match n with
  | onNext e => normalized e = true
  | onError err => err = SoundNotFound
  end.

(** The observer only receives more, and what it receives is well formed. *)
Definition sends_well_formed {E : Type} (st st' : state E) : Prop :=
  ∃ ns, sent st' = sent st ++ ns ∧ Forall well_formed ns.

(** The registry and the attached scopes are untouched. *)
Definition same_registry {E : Type} (st st' : state E) : Prop :=
  sounds st' = sounds st ∧ tags st' = tags st.

(** A statement keeps a relation between the state before and after it,
    however it completes. *)
Definition keeps {E A : Type} (R : state E → state E → Prop) (m : M E A) : Prop :=
  ∀ st, R st (m st).1.

(** * Properties *)

Section Facts.
Context {E : Type} `{Engine E}.
Implicit Types (st : state E) (command : Command) (h : handle).

Lemma sending_nil st : sending [] st = st.
Proof. destruct st; unfold sending; simpl. by rewrite app_nil_r. Qed.

Lemma sending_sending ns1 ns2 st :
  sending ns2 (sending ns1 st) = sending (ns1 ++ ns2) st.
Proof. unfold sending; simpl. by rewrite app_assoc. Qed.

Lemma run_callback_sends (f : fired) st :
  run_callback f st = (sending (map onNext (callback_events (tags st) f)) st, Normal tt).
Proof.
  unfold run_callback, callback_events, bind, this_sound, call_with_extra, soundEvent,
    soundError, obs_onNext, when, ret.
  destruct (f_callback f); simpl; try reflexivity.
  destruct (s_readyState (f_sound f) =? 3)%Z, (s_readyState (f_sound f) =? 2)%Z;
    simpl; unfold sending; simpl; rewrite <- ?app_assoc; simpl; try reflexivity.
  destruct st; simpl. by rewrite app_nil_r.
Qed.

Lemma run_callbacks_sends (fs : list fired) st :
  run_callbacks fs st = (sending (map onNext (callbacks_events (tags st) fs)) st, Normal tt).
Proof.
  revert st. induction fs as [|f fs IH]; intros st; simpl.
  - unfold ret. by rewrite sending_nil.
  - unfold bind. rewrite run_callback_sends, IH, sending_sending.
    unfold callbacks_events; simpl. by rewrite map_app.
Qed.

Lemma engine_call_runs (c : call) (op : E → E * list fired) st e' fs :
  op (engine st) = (e', fs) →
  engine_call c op st =
    ({| engine := e'; sounds := sounds st; tags := tags st;
        sent := sent st ++ map onNext (callbacks_events (tags st) fs);
        calls := calls st ++ [c] |}, Normal tt).
Proof.
  intros Hop. unfold engine_call. rewrite Hop, run_callbacks_sends. reflexivity.
Qed.

Lemma state_of_run_start st : state_of_run st (run_start (engine st)) = st.
Proof. destruct st; unfold state_of_run; simpl. by rewrite !app_nil_r. Qed.

Lemma engine_call_run (c : call) (op : E → E * list fired) st (r : engine_run E) :
  engine_call c op (state_of_run st r) = (state_of_run st (run_then c op r), Normal tt).
Proof.
  unfold run_then. destruct (op (run_engine r)) as [e' fs] eqn:Hop.
  rewrite (engine_call_runs c op _ e' fs) by exact Hop.
  unfold state_of_run, callbacks_events; simpl.
  by rewrite flat_map_app, map_app, !app_assoc.
Qed.

Lemma when_run (b : bool) (m k : M E unit) st (r r' : engine_run E) :
  (b = true → m (state_of_run st r) = (state_of_run st r', Normal tt)) →
  bind (when b m) (λ _, k) (state_of_run st r) = k (state_of_run st (if b then r' else r)).
Proof.
  intros Hm. unfold bind, when. destruct b; [by rewrite Hm|reflexivity].
Qed.

Lemma fold_left_optional {A B : Type} (f : A → B → A) (b : bool) (x : B) (a : A) :
  fold_left f (if b then [x] else []) a = if b then f a x else a.
Proof. by destruct b. Qed.

Lemma performCommand_run command st h (r : engine_run E) :
  sounds st !! default "undefined" (cmd_id command) = Some h →
  (truthy_string (cmd_action command) = true →
   is_Some (sound_dynamic h (default EmptyString (cmd_action command))
              (run_engine (before_method h command r)))) →
  performCommand command (state_of_run st r) =
    (let r' := fold_left (apply_field h) (present_fields command) r in
     sending [onNext (SoundEvent (event_object
                {| sm := sound_view h (run_engine r');
                   scope := default ScUndefined (tags st !! h) |} "update"))]
       (state_of_run st r'), Normal tt).
Proof.
  intros Hh Hact. unfold performCommand.
  unfold bind at 1, lookup_sound; simpl. rewrite Hh.
  unfold present_fields, seek_fields.
  rewrite !fold_left_app, !fold_left_optional.
  rewrite (when_run _ _ _ st r (apply_field h r (FPosition (default 0%float (cmd_position command)))))
    by (intros _; apply engine_call_run).
  set (r1 := if truthy_number (cmd_position command) then _ else r).
  rewrite (when_run _ _ _ st r1 (apply_field h r1 (FRelative (default 0%float (cmd_relative command)))))
    by (intros _; unfold setRelativePosition, bind, deref; apply engine_call_run).
  set (r2 := if truthy_number (cmd_relative command) then _ else r1).
  rewrite (when_run _ _ _ st r2 (apply_field h r2 (FProgress (default 0%float (cmd_progress command)))))
    by (intros _; unfold bind, deref; apply engine_call_run).
  set (r3 := if truthy_number (cmd_progress command) then _ else r2).
  rewrite (when_run _ _ _ st r3 (apply_field h r3 (FAction (default EmptyString (cmd_action command))))).
  2:{ intros Ha. specialize (Hact Ha). simpl.
      set (a := default EmptyString (cmd_action command)) in *.
      rewrite (when_run _ _ _ st r3 (run_then PauseAll sm_pauseAll r3))
        by (intros _; apply engine_call_run).
      set (r3' := if bool_decide (a ∈ ["play"; "resume"]) then _ else r3).
      unfold dynamic_call. simpl.
      assert (Hr3 : before_method h command r = r3').
      { unfold before_method, seek_fields.
        by rewrite !fold_left_app, !fold_left_optional. }
      rewrite Hr3 in Hact.
      destruct Hact as [[e' fs] Hdyn]. rewrite Hdyn.
      rewrite engine_call_run. unfold run_then. rewrite Hdyn. reflexivity. }
  set (r4 := if truthy_string (cmd_action command) then _ else r3).
  rewrite (when_run _ _ _ st r4 (apply_field h r4 (FVolume (default 0%float (cmd_volume command)))))
    by (intros _; apply engine_call_run).
  reflexivity.
Qed.

End Facts.

(** ** Dispatch *)

Section Dispatch.
Context {E : Type} `{Engine E}.
Implicit Types (st : state E) (command : Command) (h : handle).

Lemma events_of_app (ns1 ns2 : list notification) :
  events_of (ns1 ++ ns2) = events_of ns1 ++ events_of ns2.
Proof. unfold events_of. apply omap_app. Qed.

Lemma events_of_onNext (es : list event) : events_of (map onNext es) = es.
Proof. unfold events_of. induction es; simpl; [done|by f_equal]. Qed.

Lemma inherited_name_truthy (i : string) :
  i ∈ object_prototype_names → truthy_string (Some i) = true.
Proof.
  unfold object_prototype_names. rewrite !elem_of_cons, elem_of_nil.
  intros Hi. repeat destruct Hi as [->|Hi]; try reflexivity. destruct Hi.
Qed.

(** A command whose [id] is neither an own property of the registry nor a
    name of [Object.prototype] makes the dispatcher call [onError] with
    [SoundNotFound] on the observer and nothing else. *)
Lemma unknown_id_is_terminal_error command st (i : string) :
  cmd_id command = Some i →
  i ∉ object_prototype_names →
  sounds st !! i = None →
  performCommand command st = (sending [onError SoundNotFound] st, Normal tt).
Proof.
  intros Hid Hnot Hnone.
  unfold performCommand, bind, lookup_sound. rewrite Hid; simpl. rewrite Hnone.
  by rewrite bool_decide_eq_false_2.
Qed.

(** C2, as the code has it: the registry is a plain object, so an [id]
    that is no entry of the registry but a name of [Object.prototype]
    ([constructor], [toString], ...) finds a truthy value and the guard is
    passed. With no other field the dispatcher sends an [update] event,
    with [playing] false and every other property undefined, and no error; with the action [play] or
    [resume] it invokes the engine's pause-all and then throws or goes on
    to that event. [SoundNotFound] is never put on the observer. *)
Theorem C2_inherited_id_skips_not_found command st (i : string) :
  cmd_id command = Some i →
  i ∈ object_prototype_names →
  sounds st !! i = None →
  truthy_number (cmd_position command) = false →
  truthy_number (cmd_relative command) = false →
  truthy_number (cmd_progress command) = false →
  truthy_number (cmd_volume command) = false →
  (truthy_string (cmd_action command) = false →
   commandExecutor command st = (sending [onNext (BareEvent "update")] st, Normal tt)) ∧
  (∀ a, cmd_action command = Some a → a ∈ ["play"; "resume"] →
        calls (commandExecutor command st).1 = calls st ++ [PauseAll] ∧
        Forall (λ n, ∃ e, n = onNext e)
          (drop (length (sent st)) (sent (commandExecutor command st).1))).
Proof.
  intros Hid Hin Hnone Hp Hr Hg Hv.
  assert (Hexec : commandExecutor command st = performCommand command st).
  { unfold commandExecutor. rewrite Hid. by rewrite (inherited_name_truthy i Hin). }
  rewrite Hexec. unfold performCommand, bind at 1, lookup_sound.
  rewrite Hid; simpl. rewrite Hnone, (bool_decide_eq_true_2 _ Hin), Hp, Hr, Hg, Hv.
  split.
  - intros Ha. by rewrite Ha.
  - intros a Ha Hplay. rewrite Ha; simpl.
    assert (Hne : negb (String.eqb a EmptyString) = true).
    { set_unfold in Hplay. by destruct Hplay as [->|[->|[]]]. }
    rewrite Hne, (bool_decide_eq_true_2 _ Hplay). unfold bind, when; simpl.
    rewrite ?Hnone.
    destruct (sm_pauseAll (engine st)) as [e' fs] eqn:HP.
    rewrite (engine_call_runs PauseAll sm_pauseAll st e' fs HP).
    unfold call_inherited. destruct (inherited_call i a) as [err|]; simpl.
    + split; [reflexivity|]. rewrite drop_app_length.
      apply Forall_fmap. by apply Forall_true; eexists.
    + split; [reflexivity|]. rewrite <- app_assoc, drop_app_length.
      apply Forall_app. split; [|by repeat econstructor].
      apply Forall_fmap. by apply Forall_true; eexists.
Qed.

(** C7: a command on the creation path whose [src] is missing or empty
    makes the dispatcher throw [InvalidCommand]; nothing is sent on the
    observer, no engine entry point is invoked and the registry is as it
    was. This holds for [createSound] itself, for the dispatcher of
    [src/index.js] and for the dispatcher with the global-action branch. *)
Theorem C7_missing_src_throws command st :
  truthy_string (cmd_id command) = false →
  truthy_string (cmd_src command) = false →
  createSound command st = (st, Throw InvalidCommand) ∧
  commandExecutor command st = (st, Throw InvalidCommand) ∧
  (truthy_string (cmd_action command) = false →
   ∀ performCommand' : _ → M E unit,
     commandExecutor_global performCommand' createSound command st
     = (st, Throw InvalidCommand)).
Proof.
  intros Hid Hsrc.
  assert (Hc : createSound command st = (st, Throw InvalidCommand)).
  { unfold createSound. by rewrite Hsrc. }
  split; [exact Hc|]. split.
  - unfold commandExecutor. by rewrite Hid.
  - intros Hact pc. unfold commandExecutor_global. by rewrite Hid, Hact.
Qed.

(** C8: when the engine returns no handle, [createSound] sends exactly one
    error event with [id = null], the command's [src] and the command's
    [scope]; it completes without throwing and the registry is as it was. *)
Theorem C8_failed_creation_error_event command st (src : string) (e' : E) :
  cmd_src command = Some src →
  src ≠ EmptyString →
  sm_createSound src (engine st) = (e', None) →
  createSound command st =
    ({| engine := e'; sounds := sounds st; tags := tags st;
        sent := sent st ++ [onNext (ErrorEvent None (cmd_scope command) src)];
        calls := calls st ++ [CreateSound src false true] |}, Normal tt).
Proof.
  intros Hsrc Hne Hcreate. unfold createSound.
  assert (Htruthy : truthy_string (cmd_src command) = true).
  { rewrite Hsrc; simpl. apply negb_true_iff, String.eqb_neq, Hne. }
  rewrite Htruthy; simpl. unfold bind, soundManager_createSound.
  rewrite Hsrc; simpl. rewrite Hcreate. reflexivity.
Qed.

(** C1 (amended): in the dispatcher that has the global-action branch, a
    command with a non-empty [action] and no [id] invokes the named action
    on the engine singleton, a function of the engine, and nothing else:
    no sound is created, the registry is as it was, nothing is thrown. What
    is sent on the observer is what the callbacks run by that action send. *)
Theorem C1_global_action_path (performCommand' createSound' : Command → M E unit)
    command st (a : string) :
  truthy_string (cmd_id command) = false →
  cmd_action command = Some a →
  a ≠ EmptyString →
  has_global a →
  ∃ e' fs,
    sm_dynamic a (engine st) = Some (e', fs) ∧
    commandExecutor_global performCommand' createSound' command st =
      ({| engine := e'; sounds := sounds st; tags := tags st;
          sent := sent st ++ map onNext (callbacks_events (tags st) fs);
          calls := calls st ++ [Global a] |}, Normal tt).
Proof.
  intros Hid Hact Hne Hglobal.
  destruct (Hglobal (engine st)) as [[e' fs] Hdyn].
  exists e', fs. split; [exact Hdyn|].
  unfold commandExecutor_global. rewrite Hid.
  assert (Htruthy : truthy_string (cmd_action command) = true).
  { rewrite Hact; simpl. apply negb_true_iff, String.eqb_neq, Hne. }
  rewrite Htruthy. unfold performGlobalCommand, dynamic_call.
  rewrite Hact; simpl. rewrite Hdyn.
  by apply engine_call_runs.
Qed.

End Dispatch.

(** ** The update path *)

Section Update.
Context {E : Type} `{Engine E}.
Implicit Types (st : state E) (command : Command) (h : handle).

Lemma callback_events_not_update (tg : gmap handle scope_val) (f : fired) :
  List.filter (is_kind "update") (callback_events tg f) = [].
Proof.
  unfold callback_events.
  destruct (f_callback f); try reflexivity.
  by destruct (s_readyState (f_sound f) =? 3)%Z, (s_readyState (f_sound f) =? 2)%Z.
Qed.

Lemma callbacks_events_not_update (tg : gmap handle scope_val) (fs : list fired) :
  List.filter (is_kind "update") (callbacks_events tg fs) = [].
Proof.
  unfold callbacks_events. induction fs as [|f fs IH]; simpl; [reflexivity|].
  by rewrite List.filter_app, callback_events_not_update, IH.
Qed.

Lemma performCommand_updated command st h :
  sounds st !! default "undefined" (cmd_id command) = Some h →
  (truthy_string (cmd_action command) = true →
   is_Some (sound_dynamic h (default EmptyString (cmd_action command))
              (run_engine (before_method h command (run_start (engine st)))))) →
  performCommand command st = (updated h command st, Normal tt).
Proof.
  intros Hh Hact.
  pose proof (performCommand_run command st h (run_start (engine st)) Hh Hact) as Hrun.
  rewrite state_of_run_start in Hrun. rewrite Hrun. simpl.
  unfold updated, sending, state_of_run, apply_fields; simpl.
  by rewrite <- !app_assoc.
Qed.

Lemma new_events_updated command st h :
  new_events st (updated h command st) =
    callbacks_events (tags st)
      (run_fired (apply_fields h (present_fields command) (engine st))) ++
    [SoundEvent (event_object
       {| sm := sound_view h (engine (updated h command st));
          scope := default ScUndefined (tags st !! h) |} "update")].
Proof.
  unfold new_events, updated; simpl.
  rewrite drop_app_length, events_of_app, events_of_onNext. reflexivity.
Qed.

(** C3 (amended): an update command whose [id] names a registry entry and
    whose action, when there is one, is a function of the handle applies
    its present and truthy fields in the fixed order: [position], then
    [relative] added to the position the handle has then, then [progress]
    times the duration, then [action] as a method of the handle, then
    [volume]; it then sends one [update] event, the only [update] event the
    command sends and the last thing it sends, whose properties are those
    of the handle as the last field left it: identifier, position,
    duration, mute flag, effective volume, paused and playing flags, source
    and the scope attached to the handle. *)
Theorem C3_update_path_order command st (i : string) h :
  cmd_id command = Some i →
  sounds st !! i = Some h →
  (truthy_string (cmd_action command) = true →
   has_method h (default EmptyString (cmd_action command))) →
  let st' := updated h command st in
  let v := sound_view h (engine st') in
  performCommand command st = (st', Normal tt) ∧
  (i ≠ EmptyString → commandExecutor command st = (st', Normal tt)) ∧
  List.filter (is_kind "update") (new_events st st') =
    [SoundEvent (event_object
       {| sm := sound_view h (engine st');
          scope := default ScUndefined (tags st' !! h) |} "update")] ∧
  ∃ ev,
    last (sent (performCommand command st).1) = Some (onNext (SoundEvent ev)) ∧
    List.filter (is_kind "update") (new_events st (performCommand command st).1)
      = [SoundEvent ev] ∧
    ev_event ev = "update" ∧
    ev_id ev = s_id v ∧
    ev_position ev = s_position v ∧
    ev_duration ev = s_duration v ∧
    ev_muted ev = s_muted v ∧
    ev_volume ev = (if s_muted v then 0%float else s_volume v) ∧
    ev_paused ev = s_paused v ∧
    ev_playing ev = negb (s_paused v) && Z.eqb (s_playState v) 1 ∧
    ev_src ev = s_url v ∧
    ev_scope ev = default ScUndefined (tags st !! h).
Proof.
  intros Hid Hh Hact st' v.
  assert (Hperf : performCommand command st = (st', Normal tt)).
  { apply performCommand_updated.
    - by rewrite Hid.
    - intros Ha. apply (Hact Ha). }
  assert (Hfilter : List.filter (is_kind "update") (new_events st st') =
            [SoundEvent (event_object
               {| sm := sound_view h (engine st');
                  scope := default ScUndefined (tags st' !! h) |} "update")]).
  { subst st'. rewrite new_events_updated, List.filter_app, callbacks_events_not_update.
    reflexivity. }
  split; [exact Hperf|]. split; [|split; [exact Hfilter|]].
  - intros Hne. unfold commandExecutor. rewrite Hid; simpl.
    apply String.eqb_neq in Hne. by rewrite Hne.
  - rewrite Hperf. simpl. eexists. split; [|split; [exact Hfilter|]].
    + subst st'. unfold updated; simpl. rewrite app_assoc. apply last_snoc.
    + by repeat split.
Qed.

End Update.

(** ** Pause-all before play *)

Section OneAtATime.
Context {E : Type} `{Engine E}.
Implicit Types (st : state E) (command : Command) (h : handle).

Lemma run_then_extends (c : call) (op : E → E * list fired) (r : engine_run E) :
  run_calls (run_then c op r) = run_calls r ++ [c] ∧
  run_fired (run_then c op r) = run_fired r ++ (op (run_engine r)).2 ∧
  run_engine (run_then c op r) = (op (run_engine r)).1.
Proof. unfold run_then. by destruct (op (run_engine r)). Qed.






End OneAtATime.

(** ** Creation and the engine's callbacks *)

Section Callbacks.
Context {E : Type} `{Engine E}.
Implicit Types (st : state E) (command : Command) (h : handle).

Lemma createSound_created command st (src : string) (e' : E) h :
  cmd_src command = Some src →
  src ≠ EmptyString →
  sm_createSound src (engine st) = (e', Some h) →
  createSound command st = (created h command e' st, Normal tt).
Proof.
  intros Hsrc Hne Hcreate. unfold createSound, created.
  assert (Htruthy : truthy_string (cmd_src command) = true).
  { rewrite Hsrc; simpl. apply negb_true_iff, String.eqb_neq, Hne. }
  rewrite Htruthy; simpl. unfold bind, soundManager_createSound.
  rewrite Hsrc; simpl. rewrite Hcreate. reflexivity.
Qed.




(** C6, as the code has it: the [failure] event that the [onfailure]
    callback sends is built from the sound object alone. The payload is
    passed to [soundEvent] as a fourth argument, which [soundEvent] does not
    have: two different payloads send the same event. *)
Theorem C6_failure_payload_dropped (h : handle) (s : SMSound) (err1 err2 : string) st :
  let fire := λ err, {| f_handle := h; f_callback := onfailure err; f_sound := s |} in
  let thisSound := {| sm := s; scope := default ScUndefined (tags st !! h) |} in
  run_callback (fire err1) st =
    (sending [onNext (SoundEvent (event_object thisSound "failure"))] st, Normal tt) ∧
  run_callback (fire err1) st = run_callback (fire err2) st.
Proof.
  intros fire thisSound. split; [|by rewrite !run_callback_sends].
  by rewrite run_callback_sends.
Qed.

End Callbacks.

(** ** Scope isolation *)


Lemma in_scope_not_array (label : string) (e : event) :
  isArray (event_scope e) = false → in_scope label e = false.
Proof. unfold in_scope. by intros ->. Qed.

Lemma elem_of_isolateSource (source : list event) (label : string) (e : event) :
  e ∈ isolateSource source label ↔ e ∈ source ∧ in_scope label e = true.
Proof. unfold isolateSource. by rewrite !list_elem_of_In, filter_In. Qed.

Lemma elem_of_isolateSource_nested (source : list event) (labels : list string) (e : event) :
  e ∈ isolateSource_nested source labels ↔
  e ∈ source ∧ ∀ s, s ∈ labels → in_scope s e = true.
Proof.
  unfold isolateSource_nested. revert source.
  induction labels as [|label labels IH]; intros source; simpl.
  - split; [|by intros [? _]]. intros He. split; [exact He|]. by intros s ?%elem_of_nil.
  - rewrite IH, elem_of_isolateSource. split.
    + intros [[He Hlabel] Hrest]. split; [exact He|].
      intros s [->|Hs]%elem_of_cons; [exact Hlabel|by apply Hrest].
    + intros [He Hall]. split; [split; [exact He|]|].
      * apply Hall. by left.
      * intros s Hs. apply Hall. by right.
Qed.

Lemma callback_events_scope (tg : gmap handle scope_val) (f : fired) (e : event) :
  e ∈ callback_events tg f →
  event_scope e = default ScUndefined (tg !! f_handle f).
Proof.
  unfold callback_events. destruct (f_callback f); simpl;
    try (by intros ->%list_elem_of_singleton).
  destruct (s_readyState (f_sound f) =? 3)%Z, (s_readyState (f_sound f) =? 2)%Z; simpl;
    intros He;
    repeat match goal with
    | Hin : _ ∈ _ :: _ |- _ => apply elem_of_cons in Hin as [->|Hin]
    | Hin : _ ∈ [] |- _ => by apply elem_of_nil in Hin
    end; reflexivity.
Qed.

Section Scopes.
Context {E : Type} `{Engine E}.
Implicit Types (st : state E) (command : Command) (h : handle).

Lemma isolateSink_nested_map (sink : list Command) (labels : list string) :
  isolateSink_nested sink labels = map (scoped_nested labels) sink.
Proof.
  unfold isolateSink_nested, scoped_nested. revert sink.
  induction labels as [|label labels IH]; intros sink; simpl.
  - by rewrite map_id.
  - rewrite IH. unfold isolateSink. by rewrite map_map.
Qed.

Lemma scoped_nested_array (labels l0 : list string) (cmd : Command) :
  cmd_scope cmd = ScArray l0 →
  cmd_scope (scoped_nested labels cmd) = ScArray (l0 ++ labels).
Proof.
  unfold scoped_nested. revert l0 cmd.
  induction labels as [|label labels IH]; intros l0 cmd Hsc; simpl.
  - by rewrite app_nil_r.
  - rewrite (IH (l0 ++ [label])); [by rewrite <- app_assoc|].
    simpl. by rewrite Hsc.
Qed.

Lemma scoped_nested_undefined (label : string) (labels : list string) (cmd : Command) :
  cmd_scope cmd = ScUndefined →
  cmd_scope (scoped_nested (label :: labels) cmd) = ScArray (label :: labels).
Proof.
  intros Hsc. unfold scoped_nested; simpl.
  apply (scoped_nested_array labels [label]). simpl. by rewrite Hsc.
Qed.

(** C10: an event whose [scope] is not an array is delivered through no
    isolated source, whatever the label and however deep the nesting. In
    particular, when a command whose [scope] is absent creates a sound, no
    event a callback of that sound sends, and no [update] event for it, is
    delivered through an isolated source. *)
Theorem C10_unscoped_never_delivered command st (src : string) (e' : E) h (f : fired) :
  cmd_scope command = ScUndefined →
  cmd_src command = Some src →
  src ≠ EmptyString →
  sm_createSound src (engine st) = (e', Some h) →
  f_handle f = h →
  let st1 := created h command e' st in
  (∀ (source : list event) (label : string) (labels : list string) (e : event),
     isArray (event_scope e) = false →
     e ∉ isolateSource_nested source (label :: labels)) ∧
  createSound command st = (st1, Normal tt) ∧
  (∀ (source : list event) (label : string) (labels : list string) (e : event),
     e ∈ callback_events (tags st1) f →
     e ∉ isolateSource_nested source (label :: labels)) ∧
  (∀ (source : list event) (label : string) (labels : list string)
     (command' : Command) (e : event),
     last (sent (updated h command' st1)) = Some (onNext e) →
     e ∉ isolateSource_nested source (label :: labels)).
Proof.
  intros Hsc Hsrc Hne Hcreate Hf st1.
  assert (Hnot : ∀ (source : list event) (label : string) (labels : list string) (e : event),
            isArray (event_scope e) = false →
            e ∉ isolateSource_nested source (label :: labels)).
  { intros source label labels e Harr [_ Hall]%elem_of_isolateSource_nested.
    specialize (Hall label (list_elem_of_here _ _)).
    by rewrite in_scope_not_array in Hall. }
  split; [exact Hnot|]. split; [by apply (createSound_created command st src)|]. split.
  - intros source label labels e He. apply Hnot.
    apply callback_events_scope in He. rewrite He, Hf. subst st1; simpl.
    by rewrite lookup_insert_eq, Hsc.
  - intros source label labels command' e He. apply Hnot.
    unfold updated in He; simpl in He. rewrite app_assoc, last_snoc in He.
    injection He as <-. simpl. by rewrite lookup_insert_eq, Hsc.
Qed.

End Scopes.

(** ** The claims on the test double *)

Example dispatch_two_sounds :
  calls (run_commands commandExecutor
           [cmd_load "a.mp3"; cmd_load "b.mp3";
            cmd_action_on "sound0" "play"; cmd_action_on "sound1" "play"]
           (fake_init true)).1
  = [CreateSound "a.mp3" false true; CreateSound "b.mp3" false true;
     PauseAll; Method 0 "play"; PauseAll; Method 1 "play"].
Proof. vm_compute. reflexivity. Qed.

Example update_all_fields_calls :
  calls (performCommand cmd_all_fields demo_state).1
  = [SetPosition 1 500; SetPosition 1 750; SetPosition 1 1000;
     PauseAll; Method 1 "play"; SetVolume 1 80].
Proof. vm_compute. reflexivity. Qed.

Example update_all_fields_events :
  map event_kind (events_of (sent (performCommand cmd_all_fields demo_state).1))
  = [Some "pause"; Some "play"; Some "update"] ∧
  map event_id (events_of (sent (performCommand cmd_all_fields demo_state).1))
  = [Some "sound0"; Some "sound1"; Some "sound1"].
Proof. vm_compute. split; reflexivity. Qed.

(** C1, as stated, on [src/index.js]: its dispatcher has no global-action
    branch. A command with the action [pauseAll] and no [id] takes the
    creation path and throws [InvalidCommand]; the engine, which has a
    [pauseAll] function, is not called. *)
Lemma C1_counterexample_index_js :
  cmd_id (cmd_global "pauseAll") = None ∧
  truthy_string (cmd_action (cmd_global "pauseAll")) = true ∧
  is_Some (sm_dynamic "pauseAll" (engine demo_state)) ∧
  commandExecutor (cmd_global "pauseAll") demo_state = (demo_state, Throw InvalidCommand) ∧
  calls (commandExecutor (cmd_global "pauseAll") demo_state).1 = [].
Proof.
  split; [reflexivity|]. split; [reflexivity|]. split; [by eexists|].
  split; reflexivity.
Qed.

(** The global-action path on the test double: [pauseAll] with no [id]. *)
Lemma C1_global_action_path_witness :
  ∃ e' fs,
    sm_dynamic "pauseAll" (engine demo_state) = Some (e', fs) ∧
    commandExecutor_global performCommand createSound (cmd_global "pauseAll") demo_state =
      ({| engine := e'; sounds := sounds demo_state; tags := tags demo_state;
          sent := sent demo_state ++ map onNext (callbacks_events (tags demo_state) fs);
          calls := calls demo_state ++ [Global "pauseAll"] |}, Normal tt).
Proof.
  apply (C1_global_action_path performCommand createSound
           (cmd_global "pauseAll") demo_state "pauseAll").
  - reflexivity.
  - reflexivity.
  - discriminate.
  - intros e. eexists. reflexivity.
Defined.

(** The command with the [id] ["constructor"] and nothing else. *)
Lemma C2_inherited_id_skips_not_found_witness :
  let command :=
    {| cmd_id := Some "constructor"; cmd_src := None; cmd_action := None;
       cmd_position := None; cmd_relative := None; cmd_progress := None;
       cmd_volume := None; cmd_scope := ScUndefined |} in
  sounds demo_state !! "constructor" = None ∧
  commandExecutor command demo_state
  = (sending [onNext (BareEvent "update")] demo_state, Normal tt).
Proof.
  intros command. split; [reflexivity|].
  refine (proj1 (C2_inherited_id_skips_not_found command demo_state "constructor"
                   eq_refl _ eq_refl eq_refl eq_refl eq_refl eq_refl) eq_refl).
  left.
Defined.

(** The update command with every field, on the second sound. *)
Lemma C3_update_path_order_witness :
  sounds demo_state !! "sound1" = Some 1 ∧
  performCommand cmd_all_fields demo_state
    = (updated 1 cmd_all_fields demo_state, Normal tt) ∧
  ∃ ev,
    last (sent (performCommand cmd_all_fields demo_state).1)
      = Some (onNext (SoundEvent ev)) ∧
    ev_id ev = "sound1" ∧ ev_position ev = 1000%float ∧ ev_volume ev = 80%float ∧
    ev_playing ev = true ∧ ev_scope ev = ScArray ["x"].
Proof.
  split; [reflexivity|].
  assert (Hmethod : truthy_string (cmd_action cmd_all_fields) = true →
                    has_method 1 (default EmptyString (cmd_action cmd_all_fields))).
  { intros _ e. eexists. reflexivity. }
  pose proof (C3_update_path_order cmd_all_fields demo_state "sound1" 1
                eq_refl eq_refl Hmethod) as Hw.
  cbv zeta in Hw.
  destruct Hw as (Hperf & _ & _ & ev & Hlast & _ & _ & Hi & Hpos & _ & _ & Hvol & _
                  & Hplay & _ & Hscope).
  split; [exact Hperf|]. exists ev. split; [exact Hlast|].
  rewrite Hi, Hpos, Hvol, Hplay, Hscope. vm_compute. repeat split.
Defined.

(** C3, as stated, fails on an update command whose action is no function
    of the handle: the seek is made, then [sound[action]()] throws, and no
    [update] event is sent. *)
Lemma C3_counterexample_unknown_action :
  let command :=
    {| cmd_id := Some "sound1"; cmd_src := None; cmd_action := Some "bogus";
       cmd_position := Some 500%float; cmd_relative := None; cmd_progress := None;
       cmd_volume := None; cmd_scope := ScUndefined |} in
  sounds demo_state !! "sound1" = Some 1 ∧
  (performCommand command demo_state).2 = Throw (TypeError "bogus is not a function") ∧
  calls (performCommand command demo_state).1 = [SetPosition 1 500] ∧
  List.filter (is_kind "update")
    (new_events demo_state (performCommand command demo_state).1) = [].
Proof. vm_compute. repeat split. Qed.


(** The empty command. *)
Lemma C7_missing_src_throws_witness :
  createSound cmd_empty demo_state = (demo_state, Throw InvalidCommand) ∧
  commandExecutor cmd_empty demo_state = (demo_state, Throw InvalidCommand).
Proof.
  pose proof (C7_missing_src_throws cmd_empty demo_state eq_refl eq_refl) as (Hc & Hd & _).
  split; [exact Hc|exact Hd].
Defined.

(** A load command on an engine that makes no sound. *)
Lemma C8_failed_creation_error_event_witness :
  sm_createSound "a.mp3" (engine (fake_init false)) = (engine (fake_init false), None) ∧
  createSound (cmd_load "a.mp3") (fake_init false) =
    ({| engine := engine (fake_init false); sounds := ∅; tags := ∅;
        sent := [onNext (ErrorEvent None ScUndefined "a.mp3")];
        calls := [CreateSound "a.mp3" false true] |}, Normal tt).
Proof.
  split; [reflexivity|].
  exact (C8_failed_creation_error_event (cmd_load "a.mp3") (fake_init false) "a.mp3" _
           eq_refl ltac:(discriminate) eq_refl).
Defined.

(** A load command that came through no isolated sink. *)
Lemma C10_unscoped_never_delivered_witness :
  let f := {| f_handle := 0; f_callback := onload; f_sound := demo_sound 0 "a.mp3" false |} in
  cmd_scope (cmd_load "a.mp3") = ScUndefined ∧
  (∀ source label labels e,
     e ∈ callback_events (tags (createSound (cmd_load "a.mp3") (fake_init true)).1) f →
     e ∉ isolateSource_nested source (label :: labels)).
Proof.
  intros f.
  pose proof (C10_unscoped_never_delivered (cmd_load "a.mp3") (fake_init true) "a.mp3" _ 0 f
                eq_refl eq_refl ltac:(discriminate) eq_refl eq_refl) as Hw.
  cbv zeta in Hw. destruct Hw as (_ & Hcreate & Hevents & _).
  split; [reflexivity|]. rewrite Hcreate. exact Hevents.
Defined.

(** ** What every dispatch keeps *)

Section Keeps.
Context {E : Type} `{Engine E}.
Context (R : state E → state E → Prop) `{!PreOrder R}.

Lemma keeps_ret {A : Type} (a : A) : keeps R (ret a).
Proof. intros st. reflexivity. Qed.

Lemma keeps_throw {A : Type} (err : js_error) : keeps R (throw (A := A) err).
Proof. intros st. reflexivity. Qed.

Lemma keeps_bind {A B : Type} (m : M E A) (k : A → M E B) :
  keeps R m → (∀ a, keeps R (k a)) → keeps R (bind m k).
Proof.
  intros Hm Hk st. unfold bind. specialize (Hm st).
  destruct (m st) as [st1 [a|err]]; simpl in *; [|exact Hm].
  etransitivity; [exact Hm|apply Hk].
Qed.

Lemma keeps_when (b : bool) (m : M E unit) : keeps R m → keeps R (when b m).
Proof. intros Hm. destruct b; [exact Hm|apply keeps_ret]. Qed.

Lemma keeps_deref (h : handle) : keeps R (deref h).
Proof. intros st. reflexivity. Qed.

Lemma keeps_lookup_sound (id : option string) : keeps R (lookup_sound id).
Proof. intros st. reflexivity. Qed.

(** The relation is kept by what the adapter's functions are made of:
    the events they send, and the engine entry points, which answer
    within [good]. *)
Variable good : E * list fired → Prop.
Hypothesis keeps_soundEvent : ∀ s : sound, keeps R (soundEvent s "update").
Hypothesis keeps_bare : keeps R (obs_onNext (E := E) (BareEvent "update")).
Hypothesis keeps_onError : keeps R (obs_onError SoundNotFound).
Hypothesis keeps_engine_call :
  ∀ (c : call) (op : E → E * list fired), (∀ e, good (op e)) → keeps R (engine_call c op).
Hypothesis good_pauseAll : ∀ e, good (sm_pauseAll e).
Hypothesis good_setPosition : ∀ h x e, good (sound_setPosition h x e).
Hypothesis good_setVolume : ∀ h x e, good (sound_setVolume h x e).
Hypothesis good_sound_dynamic : ∀ h a e r, sound_dynamic h a e = Some r → good r.
Hypothesis good_sm_dynamic : ∀ a e r, sm_dynamic a e = Some r → good r.

Lemma keeps_dynamic_call (c : call) (name : string) (op : E → option (E * list fired)) :
  (∀ e r, op e = Some r → good r) → keeps R (dynamic_call c name op).
Proof.
  intros Hop st. unfold dynamic_call. destruct (op (engine st)) as [r|] eqn:Hr.
  - apply keeps_engine_call. intros _. by apply (Hop (engine st)).
  - reflexivity.
Qed.

Lemma keeps_call_inherited (member name : string) :
  keeps R (call_inherited (E := E) member name).
Proof.
  intros st. unfold call_inherited. destruct (inherited_call member name); reflexivity.
Qed.

Local Ltac keeps_steps :=
  repeat first
    [ apply keeps_bind; [|intros ?]
    | apply keeps_when
    | apply keeps_throw
    | apply keeps_deref
    | apply keeps_call_inherited
    | apply keeps_dynamic_call; apply good_sound_dynamic
    | apply keeps_engine_call;
        first [apply good_pauseAll | apply good_setPosition | apply good_setVolume]
    | apply keeps_soundEvent
    | exact keeps_bare ].

Lemma keeps_performCommand (command : Command) : keeps R (performCommand command).
Proof.
  unfold performCommand. apply keeps_bind; [apply keeps_lookup_sound|].
  intros [[h|member]|]; [| |exact keeps_onError]; keeps_steps.
Qed.

Lemma keeps_lib_performCommand (command : Command) : keeps R (lib_performCommand command).
Proof.
  unfold lib_performCommand. apply keeps_bind; [apply keeps_lookup_sound|].
  intros [[h|member]|]; [| |exact keeps_onError]; keeps_steps.
Qed.

Lemma keeps_performGlobalCommand (command : Command) :
  keeps R (performGlobalCommand command).
Proof. apply keeps_dynamic_call. apply good_sm_dynamic. Qed.

End Keeps.

Section Invariants.
Context {E : Type} `{Engine E}.
Implicit Types (st : state E) (command : Command) (h : handle).

#[local] Instance sends_well_formed_preorder : PreOrder (@sends_well_formed E).
Proof.
  split.
  - intros st. exists []. by rewrite app_nil_r.
  - intros st1 st2 st3 (ns1 & H1 & Hf1) (ns2 & H2 & Hf2).
    exists (ns1 ++ ns2). rewrite H2, H1, app_assoc. split; [reflexivity|].
    by apply Forall_app.
Qed.

#[local] Instance same_registry_preorder : PreOrder (@same_registry E).
Proof.
  split.
  - by intros st.
  - intros st1 st2 st3 [H1 H1'] [H2 H2']. split; congruence.
Qed.

Lemma normalized_event_object (s : sound) (k : string) :
  normalized (SoundEvent (event_object s k)) = true.
Proof.
  unfold normalized, event_object; simpl.
  destruct (s_muted (sm s)), (s_paused (sm s)), (s_playState (sm s) =? 1)%Z;
    reflexivity.
Qed.

Lemma normalized_callback_events (tg : gmap handle scope_val) (f : fired) :
  Forall (λ e, normalized e = true) (callback_events tg f).
Proof.
  unfold callback_events.
  destruct (f_callback f);
    try (apply Forall_singleton, normalized_event_object).
  apply Forall_app. split.
  - destruct (s_readyState (f_sound f) =? 3)%Z; [|constructor].
    apply Forall_singleton, normalized_event_object.
  - destruct (s_readyState (f_sound f) =? 2)%Z; [|constructor].
    by apply Forall_singleton.
Qed.

Lemma normalized_callbacks_events (tg : gmap handle scope_val) (fs : list fired) :
  Forall well_formed (map onNext (callbacks_events tg fs)).
Proof.
  unfold callbacks_events. induction fs as [|f fs IH]; simpl; [constructor|].
  rewrite map_app. apply Forall_app. split; [|exact IH].
  apply Forall_fmap. exact (normalized_callback_events tg f).
Qed.

Lemma sends_soundEvent (s : sound) (k : string) :
  keeps (E := E) sends_well_formed (soundEvent (E := E) s k).
Proof.
  intros st. eexists. split; [reflexivity|].
  apply Forall_singleton. apply normalized_event_object.
Qed.

Lemma sends_onError : keeps (E := E) sends_well_formed (obs_onError (E := E) SoundNotFound).
Proof. intros st. eexists. split; [reflexivity|]. by apply Forall_singleton. Qed.

Lemma sends_run_callbacks (fs : list fired) : keeps (E := E) sends_well_formed (run_callbacks fs).
Proof.
  intros st. rewrite run_callbacks_sends. eexists. split; [reflexivity|].
  apply normalized_callbacks_events.
Qed.

Lemma sends_engine_call (c : call) (op : E → E * list fired) :
  keeps (E := E) sends_well_formed (engine_call c op).
Proof.
  intros st. destruct (op (engine st)) as [e' fs] eqn:Hop.
  rewrite (engine_call_runs c op st e' fs Hop). eexists. split; [reflexivity|].
  apply normalized_callbacks_events.
Qed.

Lemma registry_soundEvent (s : sound) (k : string) :
  keeps (E := E) same_registry (soundEvent (E := E) s k).
Proof. by intros st. Qed.

Lemma registry_onError : keeps (E := E) same_registry (obs_onError (E := E) SoundNotFound).
Proof. by intros st. Qed.

Lemma registry_engine_call (c : call) (op : E → E * list fired) :
  keeps (E := E) same_registry (engine_call c op).
Proof.
  intros st. destruct (op (engine st)) as [e' fs] eqn:Hop.
  by rewrite (engine_call_runs c op st e' fs Hop).
Qed.

Lemma sends_bare :
  keeps (E := E) sends_well_formed (obs_onNext (E := E) (BareEvent "update")).
Proof. intros st. eexists. split; [reflexivity|]. by apply Forall_singleton. Qed.

Lemma sends_performCommand command :
  keeps (E := E) sends_well_formed (performCommand command).
Proof.
  apply (keeps_performCommand sends_well_formed (λ _, True));
    auto using sends_soundEvent, sends_bare, sends_onError.
  intros c op _. apply sends_engine_call.
Qed.

Lemma registry_performCommand command :
  keeps (E := E) same_registry (performCommand command).
Proof.
  apply (keeps_performCommand same_registry (λ _, True));
    auto using registry_soundEvent, registry_onError.
  intros c op _. apply registry_engine_call.
Qed.

(** What [createSound] leaves, case by case. *)
Lemma createSound_cases command st :
  createSound command st = (st, Throw InvalidCommand) ∨
  (∃ src e', sm_createSound src (engine st) = (e', None) ∧
     createSound command st =
       ({| engine := e'; sounds := sounds st; tags := tags st;
           sent := sent st ++ [onNext (ErrorEvent None (cmd_scope command) src)];
           calls := calls st ++ [CreateSound src false true] |}, Normal tt)) ∨
  (∃ e' h, createSound command st = (created h command e' st, Normal tt)).
Proof.
  unfold createSound, created.
  destruct (truthy_string (cmd_src command)); simpl; [|by left].
  right. unfold bind, soundManager_createSound.
  destruct (sm_createSound (default EmptyString (cmd_src command)) (engine st))
    as [e' [h|]] eqn:Hc.
  - right. by exists e', h.
  - left. by exists (default EmptyString (cmd_src command)), e'.
Qed.

Lemma sends_createSound command : keeps (E := E) sends_well_formed (createSound command).
Proof.
  intros st.
  destruct (createSound_cases command st) as [->|[(src & e' & _ & ->)|(e' & h & ->)]]; simpl.
  - reflexivity.
  - eexists. split; [reflexivity|]. by apply Forall_singleton.
  - exists []. by rewrite app_nil_r.
Qed.

Lemma sends_commandExecutor command : keeps (E := E) sends_well_formed (commandExecutor command).
Proof.
  unfold commandExecutor. destruct (truthy_string (cmd_id command)).
  - apply sends_performCommand.
  - apply sends_createSound.
Qed.

Lemma delivered_terminated (ns more : list notification) :
  terminated ns = true → delivered (ns ++ more) = delivered ns.
Proof.
  induction ns as [|[e|err] ns IH]; simpl; [discriminate| |reflexivity].
  intros Hns. by rewrite IH.
Qed.

(** X1: whatever the command and whatever the callbacks the engine runs,
    the dispatcher and the callbacks only add to what the observer has
    received, every event they add reports volume 0 for a muted sound and
    never reports a paused sound as playing, and the only error they put on
    the observer is [SoundNotFound]. This holds however the dispatch
    completes, also when it throws. *)
Theorem X1_dispatch_sends_normalized_events command st (fs : list fired) :
  sends_well_formed st (commandExecutor command st).1 ∧
  sends_well_formed st (commandExecutor_global performCommand createSound command st).1 ∧
  sends_well_formed st (run_callbacks fs st).1.
Proof.
  split; [apply sends_commandExecutor|]. split; [|apply sends_run_callbacks].
  unfold commandExecutor_global.
  destruct (truthy_string (cmd_id command)).
  - apply sends_performCommand.
  - destruct (truthy_string (cmd_action command)).
    + apply (keeps_performGlobalCommand sends_well_formed (λ _, True)); [|done].
      intros c op _. apply sends_engine_call.
    + apply sends_createSound.
Qed.

(** X2: an update command never changes the registry nor the scopes
    attached to the handles, however it completes; and no command removes
    an identifier from the registry. *)
Theorem X2_registry_never_shrinks command st :
  same_registry st (performCommand command st).1 ∧
  dom (sounds st) ⊆ dom (sounds (commandExecutor command st).1).
Proof.
  assert (Hupd : same_registry st (performCommand command st).1).
  { apply registry_performCommand. }
  split; [exact Hupd|].
  unfold commandExecutor. destruct (truthy_string (cmd_id command)).
  - destruct Hupd as [-> _]. reflexivity.
  - destruct (createSound_cases command st) as [->|[(src & e' & _ & ->)|(e' & h & ->)]]; simpl.
    + reflexivity.
    + reflexivity.
    + rewrite dom_insert_L. set_solver.
Qed.

Lemma apply_field_calls h (r : engine_run E) (fld : update_field) :
  (S (length (run_calls r)) ≤ length (run_calls (apply_field h r fld)))%nat.
Proof.
  destruct fld; simpl; rewrite ?(proj1 (run_then_extends _ _ _)), ?length_app; simpl;
    try lia.
  destruct (bool_decide (a ∈ ["play"; "resume"])); [|lia].
  rewrite (proj1 (run_then_extends _ _ _)), length_app. simpl. lia.
Qed.

Lemma apply_fields_calls h (flds : list update_field) (r : engine_run E) :
  (length (run_calls r) + length flds
   ≤ length (run_calls (fold_left (apply_field h) flds r)))%nat.
Proof.
  revert r. induction flds as [|fld flds IH]; intros r; simpl; [lia|].
  specialize (IH (apply_field h r fld)).
  pose proof (apply_field_calls h r fld). lia.
Qed.

(** X3: the dispatcher does not look at what the stream has done. Once
    the stream has ended with an error, an update command for a registered
    sound is still carried out on the engine, field by field, with at
    least one engine call for each present field; what it sends is
    delivered to nobody: what subscribers have received stays what it
    was. *)
Theorem X3_nothing_delivered_after_error command st (i : string) h :
  terminated (sent st) = true →
  cmd_id command = Some i →
  i ≠ EmptyString →
  sounds st !! i = Some h →
  (truthy_string (cmd_action command) = true →
   has_method h (default EmptyString (cmd_action command))) →
  let st' := (commandExecutor command st).1 in
  let r := apply_fields h (present_fields command) (engine st) in
  (commandExecutor command st).2 = Normal tt ∧
  engine st' = run_engine r ∧
  calls st' = calls st ++ run_calls r ∧
  (length (calls st) + length (present_fields command) ≤ length (calls st'))%nat ∧
  delivered (sent st') = delivered (sent st).
Proof.
  intros Hterm Hid Hne Hh Hact st' r.
  assert (Hexec : commandExecutor command st = (updated h command st, Normal tt)).
  { unfold commandExecutor. rewrite Hid; simpl.
    apply String.eqb_neq in Hne. rewrite Hne; simpl.
    apply performCommand_updated; [by rewrite Hid|].
    intros Ha. apply (Hact Ha). }
  subst st'. rewrite Hexec; simpl. fold r.
  split; [reflexivity|]. split; [reflexivity|]. split; [reflexivity|]. split.
  - rewrite length_app. pose proof (apply_fields_calls h (present_fields command)
                                      (run_start (engine st))) as Hlen.
    simpl in Hlen. fold (apply_fields h (present_fields command) (engine st)) in Hlen.
    fold r in Hlen. lia.
  - by apply delivered_terminated.
Qed.

End Invariants.

(** ** Runs of commands and callbacks *)

Section Runs.
Context {E : Type} `{Engine E}.
Implicit Types (st : state E) (command : Command) (h : handle).

#[local] Existing Instance same_registry_preorder.

#[local] Instance emits_preorder (P : event → Prop) : PreOrder (emits (E := E) P).
Proof.
  split.
  - intros st. exists []. split; [by rewrite app_nil_r|constructor].
  - intros st1 st2 st3 (ns1 & H1 & F1) (ns2 & H2 & F2). exists (ns1 ++ ns2). split.
    + by rewrite H2, H1, app_assoc.
    + rewrite events_of_app. by apply Forall_app.
Qed.


















End Runs.






(** ** Edges of the update path *)

Section UpdateEdges.
Context {E : Type} `{Engine E}.
Implicit Types (st : state E) (command : Command) (h : handle).
Local Set Warnings "-clear-no-such-hyp".

Lemma performCommand_run_throws command st h (a : string) (r : engine_run E) :
  sounds st !! default "undefined" (cmd_id command) = Some h →
  cmd_action command = Some a →
  a ≠ EmptyString →
  sound_dynamic h a (run_engine (before_method h command r)) = None →
  performCommand command (state_of_run st r) =
    (state_of_run st (before_method h command r),
     Throw (TypeError (a +:+ " is not a function"))).
Proof.
  intros Hh Hact Hne Hnone. unfold performCommand.
  unfold bind at 1, lookup_sound; simpl. rewrite Hh.
  rewrite (when_run _ _ _ st r (apply_field h r (FPosition (default 0%float (cmd_position command)))))
    by (intros _; apply engine_call_run).
  set (r1 := if truthy_number (cmd_position command) then _ else r).
  rewrite (when_run _ _ _ st r1 (apply_field h r1 (FRelative (default 0%float (cmd_relative command)))))
    by (intros _; unfold setRelativePosition, bind, deref; apply engine_call_run).
  set (r2 := if truthy_number (cmd_relative command) then _ else r1).
  rewrite (when_run _ _ _ st r2 (apply_field h r2 (FProgress (default 0%float (cmd_progress command)))))
    by (intros _; unfold bind, deref; apply engine_call_run).
  set (r3 := if truthy_number (cmd_progress command) then _ else r2).
  assert (Hr3 : fold_left (apply_field h) (seek_fields command) r = r3).
  { unfold seek_fields. by rewrite !fold_left_app, !fold_left_optional. }
  unfold before_method in *. rewrite Hr3 in *. rewrite Hact in *; simpl in *.
  assert (Ha : negb (String.eqb a EmptyString) = true).
  { by apply negb_true_iff, String.eqb_neq. }
  rewrite Ha. unfold bind at 1. unfold when at 1.
  rewrite (when_run _ _ _ st r3 (run_then PauseAll sm_pauseAll r3))
    by (intros _; apply engine_call_run).
  unfold dynamic_call; simpl. by rewrite Hnone.
Qed.

(** X4: when the handle has no function named by [action], the update
    command throws a [TypeError] at that call. The seeks before it have
    been made, and so has the engine's pause-all for [play] or [resume];
    the volume is not set and no [update] event is sent. *)
Theorem X4_unknown_action_throws_midway command st h (a : string) :
  sounds st !! default "undefined" (cmd_id command) = Some h →
  cmd_action command = Some a →
  a ≠ EmptyString →
  sound_dynamic h a (run_engine (before_method h command (run_start (engine st)))) = None →
  let r := before_method h command (run_start (engine st)) in
  performCommand command st =
    (state_of_run st r, Throw (TypeError (a +:+ " is not a function"))) ∧
  List.filter (is_kind "update") (new_events st (state_of_run st r)) = [] ∧
  (∀ v, SetVolume h v ∉ run_calls r) ∧
  (∀ name, Method h name ∉ run_calls r).
Proof.
  intros Hh Hact Hne Hnone r.
  split; [|split].
  - pose proof (performCommand_run_throws command st h a (run_start (engine st))
                  Hh Hact Hne Hnone) as Hrun.
    by rewrite state_of_run_start in Hrun.
  - unfold new_events, state_of_run; simpl.
    by rewrite drop_app_length, events_of_onNext, callbacks_events_not_update.
  - subst r. unfold before_method, seek_fields.
    rewrite !fold_left_app, !fold_left_optional.
    assert (Hstep : ∀ (c : call) (op : E → E * list fired) (r0 : engine_run E),
              run_calls (run_then c op r0) = run_calls r0 ++ [c])
      by (intros; apply run_then_extends).
    split; intros x Hin;
      repeat match type of Hin with
      | context [if ?b then _ else _] => destruct b
      end; simpl in Hin; rewrite ?Hstep in Hin; simpl in Hin;
      set_unfold in Hin; naive_solver.
Qed.

(** X5: falsy fields are skipped. An update command whose [position],
    [relative], [progress] and [volume] are absent, 0 or NaN and whose
    [action] is absent or empty invokes no engine entry point: it only
    sends the [update] event of the handle as it is. So [position: 0] does
    not seek to the start and [volume: 0] does not silence the sound. *)
Theorem X5_falsy_fields_only_report command st h :
  sounds st !! default "undefined" (cmd_id command) = Some h →
  truthy_number (cmd_position command) = false →
  truthy_number (cmd_relative command) = false →
  truthy_number (cmd_progress command) = false →
  truthy_string (cmd_action command) = false →
  truthy_number (cmd_volume command) = false →
  performCommand command st =
    (sending [onNext (SoundEvent (event_object
                {| sm := sound_view h (engine st);
                   scope := default ScUndefined (tags st !! h) |} "update"))] st,
     Normal tt).
Proof.
  intros Hh Hp Hr Hg Ha Hv.
  rewrite (performCommand_updated command st h Hh) by (rewrite Ha; discriminate).
  unfold updated, apply_fields, present_fields, seek_fields, sending.
  rewrite Hp, Hr, Hg, Ha, Hv; simpl. by rewrite app_nil_r.
Qed.

(** X6: [position] and [relative] in one command compose. When the engine
    takes the absolute position as given, the relative offset is added to
    it: the command seeks to [position], then to [position + relative]. *)
Theorem X6_position_then_relative command st h (p d : float) :
  sounds st !! default "undefined" (cmd_id command) = Some h →
  cmd_position command = Some p →
  truthy_number (Some p) = true →
  cmd_relative command = Some d →
  truthy_number (Some d) = true →
  truthy_number (cmd_progress command) = false →
  truthy_string (cmd_action command) = false →
  truthy_number (cmd_volume command) = false →
  s_position (sound_view h (sound_setPosition h p (engine st)).1) = p →
  calls (performCommand command st).1 =
    calls st ++ [SetPosition h p; SetPosition h (p + d)%float].
Proof.
  intros Hh Hp Hpt Hd Hdt Hg Ha Hv Hengine.
  rewrite (performCommand_updated command st h Hh) by (rewrite Ha; discriminate).
  unfold updated, apply_fields, present_fields, seek_fields; simpl.
  rewrite Hp, Hpt, Hd, Hdt, Hg, Ha, Hv; simpl.
  destruct (run_then_extends (SetPosition h p) (sound_setPosition h p)
              (run_start (engine st))) as (Hc1 & _ & He1).
  rewrite (proj1 (run_then_extends _ _ _)), Hc1, He1; simpl.
  by rewrite Hengine.
Qed.

Lemma pauseAll_in_apply_field h (r : engine_run E) (fld : update_field) :
  PauseAll ∈ run_calls (apply_field h r fld) ↔
  PauseAll ∈ run_calls r ∨ ∃ a, fld = FAction a ∧ a ∈ ["play"; "resume"].
Proof.
  assert (Hstep : ∀ (c : call) (op : E → E * list fired) (r0 : engine_run E),
            run_calls (run_then c op r0) = run_calls r0 ++ [c])
    by (intros; apply run_then_extends).
  destruct fld as [x|x|x|a|x]; simpl; rewrite ?Hstep.
  1-3, 5: set_unfold; naive_solver.
  case_bool_decide as Ha; rewrite ?Hstep; set_unfold; naive_solver.
Qed.

Lemma pauseAll_in_apply_fields h (flds : list update_field) (r : engine_run E) :
  PauseAll ∈ run_calls (fold_left (apply_field h) flds r) ↔
  PauseAll ∈ run_calls r ∨ ∃ a, FAction a ∈ flds ∧ a ∈ ["play"; "resume"].
Proof.
  revert r. induction flds as [|fld flds IH]; intros r; simpl.
  - set_unfold; naive_solver.
  - rewrite IH, pauseAll_in_apply_field. set_unfold; naive_solver.
Qed.

(** X7: the engine's pause-all is invoked by an update command exactly
    when its action is [play] or [resume]; [pause], [stop] and every other
    action, and commands with no action, leave the other sounds alone. *)
Theorem X7_pause_all_only_for_play_and_resume command st h :
  sounds st !! default "undefined" (cmd_id command) = Some h →
  (truthy_string (cmd_action command) = true →
   has_method h (default EmptyString (cmd_action command))) →
  ∃ cs, calls (performCommand command st).1 = calls st ++ cs ∧
        (PauseAll ∈ cs ↔ ∃ a, cmd_action command = Some a ∧ a ∈ ["play"; "resume"]).
Proof.
  intros Hh Hact.
  rewrite (performCommand_updated command st h Hh) by (intros Ha; apply (Hact Ha)).
  eexists. split; [reflexivity|].
  unfold apply_fields. rewrite pauseAll_in_apply_fields. simpl.
  unfold present_fields, seek_fields. split.
  - intros [Hin|(a & Hin & Ha)]; [by apply elem_of_nil in Hin|].
    exists a. split; [|exact Ha].
    destruct (cmd_action command) as [a'|]; simpl in *.
    + repeat match type of Hin with
        | context [if ?b then _ else _] => destruct b
        end; set_unfold in Hin; naive_solver.
    + repeat match type of Hin with
        | context [if ?b then _ else _] => destruct b
        end; set_unfold in Hin; naive_solver.
  - intros (a & Ha & Hin). right. exists a. split; [|exact Hin].
    rewrite Ha; simpl.
    assert (Hne : negb (String.eqb a EmptyString) = true).
    { set_unfold in Hin. by destruct Hin as [->|[->|[]]]. }
    rewrite Hne. set_solver.
Qed.

End UpdateEdges.

(** ** Creation, callbacks and the global branch *)

Section CreationEdges.
Context {E : Type} `{Engine E}.
Implicit Types (st : state E) (command : Command) (h : handle).

(** X8: a sound can be addressed by the identifier the engine gave it.
    After a creation that succeeds, a command whose [id] is that identifier
    takes the update path on the new handle: no [SoundNotFound], and its
    [update] event carries the [scope] of the creation command. *)
Theorem X8_created_sound_is_addressable command command' st (src i : string)
    (e' : E) h :
  truthy_string (cmd_id command) = false →
  cmd_src command = Some src →
  src ≠ EmptyString →
  sm_createSound src (engine st) = (e', Some h) →
  s_id (sound_view h e') = i →
  i ≠ EmptyString →
  cmd_id command' = Some i →
  (truthy_string (cmd_action command') = true →
   has_method h (default EmptyString (cmd_action command'))) →
  let st1 := created h command e' st in
  run_commands commandExecutor [command; command'] st
    = (updated h command' st1, Normal tt) ∧
  sounds st1 !! i = Some h ∧
  ∃ ev, last (sent (updated h command' st1)) = Some (onNext (SoundEvent ev)) ∧
        ev_event ev = "update" ∧ ev_scope ev = cmd_scope command.
Proof.
  intros Hid Hsrc Hne Hcreate Hi Hine Hid' Hact st1.
  assert (Hlook : sounds st1 !! i = Some h).
  { subst st1; simpl. rewrite Hi. apply lookup_insert_eq. }
  split; [|split; [exact Hlook|]].
  - simpl. unfold commandExecutor at 1. rewrite Hid.
    rewrite (createSound_created command st src e' h Hsrc Hne Hcreate).
    fold st1. unfold commandExecutor. rewrite Hid'; simpl.
    apply String.eqb_neq in Hine. rewrite Hine; simpl.
    rewrite (performCommand_updated command' st1 h); [reflexivity| |].
    + by rewrite Hid'.
    + intros Ha. apply (Hact Ha).
  - eexists. split; [|split].
    + unfold updated; simpl. rewrite app_assoc. apply last_snoc.
    + reflexivity.
    + simpl. by rewrite lookup_insert_eq.
Qed.

(** X9: [createSound] reads [src] and [scope] only, and the one engine
    entry point it invokes is [createSound] with [autoPlay: false] and
    [autoLoad: true]: an [action], a [position] or a [volume] on a creation
    command has no effect, the new sound is not played. *)
Theorem X9_creation_ignores_other_fields command command' st :
  cmd_src command = cmd_src command' →
  cmd_scope command = cmd_scope command' →
  createSound command st = createSound command' st ∧
  (calls (createSound command st).1 = calls st ∨
   calls (createSound command st).1 =
     calls st ++ [CreateSound (default EmptyString (cmd_src command)) false true]).
Proof.
  intros Hsrc Hscope. split.
  - unfold createSound. by rewrite Hsrc, Hscope.
  - unfold createSound.
    destruct (truthy_string (cmd_src command)); simpl; [|by left].
    right. unfold bind, soundManager_createSound.
    by destruct (sm_createSound (default EmptyString (cmd_src command)) (engine st))
      as [e' [h|]].
Qed.


(** X11: in the dispatcher with the global-action branch, an action the
    engine has no function for throws a [TypeError]; the engine is not
    called, nothing is sent and the registry is as it was. *)
Theorem X11_unknown_global_action_throws (performCommand' createSound' : Command → M E unit)
    command st (a : string) :
  truthy_string (cmd_id command) = false →
  cmd_action command = Some a →
  a ≠ EmptyString →
  sm_dynamic a (engine st) = None →
  commandExecutor_global performCommand' createSound' command st =
    (st, Throw (TypeError (a +:+ " is not a function"))).
Proof.
  intros Hid Hact Hne Hnone. unfold commandExecutor_global. rewrite Hid, Hact; simpl.
  apply String.eqb_neq in Hne. rewrite Hne; simpl.
  unfold performGlobalCommand, dynamic_call. rewrite Hact; simpl. by rewrite Hnone.
Qed.

End CreationEdges.

(** ** More on scope isolation *)

Lemma filter_filter_andb {A : Type} (p q : A → bool) (l : list A) :
  List.filter p (List.filter q l) = List.filter (λ x, q x && p x) l.
Proof.
  induction l as [|x l IH]; simpl; [reflexivity|].
  destruct (q x); simpl; [|exact IH].
  destruct (p x); by rewrite IH.
Qed.

Lemma isolateSource_nested_filter (source : list event) (labels : list string) :
  isolateSource_nested source labels =
  List.filter (λ e, forallb (λ s, in_scope s e) labels) source.
Proof.
  unfold isolateSource_nested. revert source.
  induction labels as [|label labels IH]; intros source; simpl.
  - induction source as [|e source IHs]; simpl; [reflexivity|]. by rewrite <- IHs.
  - rewrite IH. unfold isolateSource. apply filter_filter_andb.
Qed.

Lemma sublist_List_filter {A : Type} (p : A → bool) (l : list A) :
  sublist (List.filter p l) l.
Proof.
  induction l as [|x l IH]; simpl; [constructor|].
  destruct (p x); by constructor.
Qed.

(** X12: nested source isolation depends on the set of labels only.
    Isolating to the same labels in another order, or to a label twice,
    gives the same stream; and an isolated stream carries events of its
    source in the order of the source. *)
Theorem X12_nested_isolation_order_irrelevant (source : list event)
    (labels labels' : list string) :
  (∀ s, s ∈ labels ↔ s ∈ labels') →
  isolateSource_nested source labels = isolateSource_nested source labels' ∧
  sublist (isolateSource_nested source labels) source.
Proof.
  intros Hsame. rewrite !isolateSource_nested_filter. split.
  - apply List.filter_ext. intros e.
    apply eq_true_iff_eq. rewrite !forallb_forall.
    split; intros Hall s Hs; apply Hall;
      apply list_elem_of_In, Hsame, list_elem_of_In, Hs.
  - apply sublist_List_filter.
Qed.

Lemma scoped_nested_fields (labels : list string) (cmd : Command) :
  cmd_id (scoped_nested labels cmd) = cmd_id cmd ∧
  cmd_src (scoped_nested labels cmd) = cmd_src cmd ∧
  cmd_action (scoped_nested labels cmd) = cmd_action cmd ∧
  cmd_position (scoped_nested labels cmd) = cmd_position cmd ∧
  cmd_relative (scoped_nested labels cmd) = cmd_relative cmd ∧
  cmd_progress (scoped_nested labels cmd) = cmd_progress cmd ∧
  cmd_volume (scoped_nested labels cmd) = cmd_volume cmd.
Proof.
  unfold scoped_nested. revert cmd.
  induction labels as [|label labels IH]; intros cmd; simpl; [done|].
  destruct (IH (scoped label cmd)) as (-> & -> & -> & -> & -> & -> & ->). done.
Qed.

(** X13: nested sink isolation keeps the stream of commands as it is, one
    command for one, in order, every field but [scope] unchanged; the
    labels are appended to a [scope] that is an array in the order of the
    nesting, innermost first. *)
Theorem X13_nested_sink_appends_in_order (sink : list Command) (labels : list string)
    (i : nat) (cmd : Command) :
  sink !! i = Some cmd →
  length (isolateSink_nested sink labels) = length sink ∧
  ∃ cmd', isolateSink_nested sink labels !! i = Some cmd' ∧
    cmd_id cmd' = cmd_id cmd ∧ cmd_src cmd' = cmd_src cmd ∧
    cmd_action cmd' = cmd_action cmd ∧ cmd_position cmd' = cmd_position cmd ∧
    cmd_relative cmd' = cmd_relative cmd ∧ cmd_progress cmd' = cmd_progress cmd ∧
    cmd_volume cmd' = cmd_volume cmd ∧
    (∀ l0, cmd_scope cmd = ScArray l0 → cmd_scope cmd' = ScArray (l0 ++ labels)) ∧
    (cmd_scope cmd = ScUndefined → labels ≠ [] → cmd_scope cmd' = ScArray labels).
Proof.
  intros Hi. rewrite isolateSink_nested_map. split; [apply length_map|].
  exists (scoped_nested labels cmd). split.
  { by rewrite list_lookup_fmap, Hi. }
  destruct (scoped_nested_fields labels cmd) as (-> & -> & -> & -> & -> & -> & ->).
  repeat split.
  - intros l0 Hl0. by apply scoped_nested_array.
  - intros Hundef Hne. destruct labels as [|label labels]; [done|].
    by apply scoped_nested_undefined.
Qed.

Lemma createSound_fails {E : Type} `{Engine E} (command : Command) (st : state E)
    (src : string) (e' : E) :
  cmd_src command = Some src →
  src ≠ EmptyString →
  sm_createSound src (engine st) = (e', None) →
  createSound command st =
    ({| engine := e'; sounds := sounds st; tags := tags st;
        sent := sent st ++ [onNext (ErrorEvent None (cmd_scope command) src)];
        calls := calls st ++ [CreateSound src false true] |}, Normal tt).
Proof.
  intros Hsrc Hne Hcreate. unfold createSound.
  assert (Htruthy : truthy_string (cmd_src command) = true).
  { rewrite Hsrc; simpl. apply negb_true_iff, String.eqb_neq, Hne. }
  rewrite Htruthy; simpl. unfold bind, soundManager_createSound.
  rewrite Hsrc; simpl. rewrite Hcreate. reflexivity.
Qed.

Section ScopeRoundTrip.
Context {E : Type} `{Engine E}.
Implicit Types (st : state E) (command : Command) (h : handle).




(** X15: a creation that fails inside an isolated component is reported
    to that component: the error event carries the command's [scope], so
    the source isolated to the label of the sink delivers it, and a source
    isolated to a label that is not in the scope does not. *)
Theorem X15_failed_creation_stays_in_scope (cmd : Command) st (src label : string)
    (e' : E) (l0 : list string) :
  cmd_scope cmd = ScArray l0 ∨ (cmd_scope cmd = ScUndefined ∧ l0 = []) →
  cmd_src cmd = Some src →
  src ≠ EmptyString →
  sm_createSound src (engine st) = (e', None) →
  let st1 := (createSound (scoped label cmd) st).1 in
  new_events st st1 = [ErrorEvent None (ScArray (l0 ++ [label])) src] ∧
  isolateSource (new_events st st1) label = new_events st st1 ∧
  ∀ other, other ∉ l0 ++ [label] → isolateSource (new_events st st1) other = [].
Proof.
  intros Hsc Hsrc Hne Hcreate st1.
  assert (Hscope : cmd_scope (scoped label cmd) = ScArray (l0 ++ [label])).
  { simpl. by destruct Hsc as [->|[-> ->]]. }
  assert (Hnew : new_events st st1 = [ErrorEvent None (ScArray (l0 ++ [label])) src]).
  { subst st1.
    rewrite (createSound_fails (scoped label cmd) st src e' Hsrc Hne Hcreate).
    unfold new_events; simpl. rewrite drop_app_length. simpl in *. by rewrite Hscope. }
  split; [exact Hnew|]. rewrite Hnew. unfold isolateSource; simpl. split.
  - unfold in_scope, contains; simpl.
    rewrite bool_decide_eq_true_2; [reflexivity|].
    apply elem_of_app. right. constructor.
  - intros other Hother. unfold in_scope, contains; simpl.
    by rewrite bool_decide_eq_false_2.
Qed.

End ScopeRoundTrip.

(** ** The older compiled build *)

Section LibFacts.
Context {E : Type} `{Engine E}.
Implicit Types (st : state E) (command : Command) (h : handle).

(** X16: in the older build [createSound] has no guard: when the engine
    returns no handle it throws a [TypeError] on the assignment of the
    scope, after the engine was called; no error event is sent and the
    registry is as it was. *)
Theorem X16_lib_failed_creation_throws command st (src : string) (e' : E) :
  truthy_string (cmd_id command) = false →
  cmd_src command = Some src →
  src ≠ EmptyString →
  sm_createSound src (engine st) = (e', None) →
  let st1 := {| engine := e'; sounds := sounds st; tags := tags st; sent := sent st;
                calls := calls st ++ [CreateSound src false true] |} in
  ∃ msg,
    lib_createSound command st = (st1, Throw (TypeError msg)) ∧
    lib_commandExecutor command st = (st1, Throw (TypeError msg)).
Proof.
  intros Hid Hsrc Hne Hcreate st1. eexists.
  assert (Hlib : lib_createSound command st =
            (st1, Throw (TypeError "Cannot set property scope"))).
  { unfold lib_createSound.
    assert (Htruthy : truthy_string (cmd_src command) = true).
    { rewrite Hsrc; simpl. apply negb_true_iff, String.eqb_neq, Hne. }
    rewrite Htruthy; simpl. unfold bind, soundManager_createSound.
    rewrite Hsrc; simpl. by rewrite Hcreate. }
  split; [exact Hlib|].
  unfold lib_commandExecutor. rewrite Hid. unfold bind. by rewrite Hlib.
Qed.

(** X17: disposing the observable of the older build reboots the engine
    and empties the registry: every command that names a sound afterwards
    gets [SoundNotFound], whatever its [id], unless the [id] is a name of
    [Object.prototype], which the emptied object still inherits. *)
Theorem X17_lib_dispose_forgets_every_sound command st (i : string) (e' : E)
    (fs : list fired) :
  sm_dynamic "reboot" (engine st) = Some (e', fs) →
  cmd_id command = Some i →
  i ≠ EmptyString →
  i ∉ object_prototype_names →
  let st1 := (lib_dispose st).1 in
  (lib_dispose st).2 = Normal tt ∧
  sounds st1 = ∅ ∧
  engine st1 = e' ∧
  calls st1 = calls st ++ [Global "reboot"] ∧
  lib_commandExecutor command st1 = (sending [onError SoundNotFound] st1, Normal tt).
Proof.
  intros Hreboot Hid Hne Hnot st1.
  assert (Hd : lib_dispose st =
            ({| engine := e'; sounds := ∅; tags := tags st;
                sent := sent st ++ map onNext (callbacks_events (tags st) fs);
                calls := calls st ++ [Global "reboot"] |}, Normal tt)).
  { unfold lib_dispose, bind, dynamic_call. rewrite Hreboot.
    by rewrite (engine_call_runs _ _ st e' fs). }
  subst st1. rewrite Hd; simpl. repeat split.
  unfold lib_commandExecutor. rewrite Hid; simpl.
  apply String.eqb_neq in Hne. rewrite Hne; simpl.
  unfold lib_performCommand, bind, lookup_sound; simpl. rewrite Hid; simpl.
  by rewrite lookup_empty, bool_decide_eq_false_2.
Qed.

End LibFacts.

(** ** The setup options *)

Lemma setupOptions_fold_lookup (o base : gmap string js_value) (k : string) :
  map_fold (λ key v acc, <[key := v]> acc) base o !! k =
    match o !! k with
    | Some v => Some v
    | None => base !! k
    end.
Proof.
  apply (map_fold_weak_ind
           (λ (r : gmap string js_value) (m : gmap string js_value),
              r !! k = match m !! k with Some v => Some v | None => base !! k end)).
  - by rewrite lookup_empty.
  - intros i x m r Hi IH. destruct (decide (i = k)) as [->|Hne].
    + by rewrite !lookup_insert_eq.
    + by rewrite !lookup_insert_ne.
Qed.

(** X18: [makeAudioDriver] writes the options over the engine's setup
    options: a key of [options] takes the value given, [url] included;
    without it [url] is the path of the bundled swf files; every other key
    keeps the value it had. With [options] undefined, as in a call with no
    argument, [Object.keys] throws a [TypeError], after [url] was set. *)
Theorem X18_setup_options_override (o setupOptions : gmap string js_value) (k : string) :
  (makeAudioDriver_setupOptions (Some o) setupOptions).2 = Normal tt ∧
  (makeAudioDriver_setupOptions (Some o) setupOptions).1 !! k =
    match o !! k with
    | Some v => Some v
    | None => if decide (k = "url") then Some (VStr swf_url) else setupOptions !! k
    end ∧
  (∃ msg, (makeAudioDriver_setupOptions None setupOptions).2 = Throw (TypeError msg)) ∧
  (makeAudioDriver_setupOptions None setupOptions).1 !! "url" = Some (VStr swf_url).
Proof.
  split; [reflexivity|]. split; [|split].
  - simpl. rewrite setupOptions_fold_lookup.
    destruct (o !! k); [reflexivity|].
    destruct (decide (k = "url")) as [->|Hne].
    + by rewrite lookup_insert_eq.
    + by rewrite lookup_insert_ne.
  - by eexists.
  - simpl. by rewrite lookup_insert_eq.
Qed.

(** ** The helpers of the test suite *)

Lemma matches_lookup (obj spec : gmap string js_value) :
  matches obj spec = true ↔
  ∀ k v, spec !! k = Some v → strict_equal (get obj k) v = true.
Proof.
  unfold matches. rewrite forallb_forall. split.
  - intros Hall k v Hk. specialize (Hall k).
    unfold get at 2 in Hall. rewrite Hk in Hall. apply Hall.
    apply list_elem_of_In, list_elem_of_fmap. exists (k, v).
    split; [reflexivity|]. by apply elem_of_map_to_list.
  - intros Hall k Hk.
    apply list_elem_of_In, list_elem_of_fmap in Hk as ([k' v] & -> & Hkv).
    apply elem_of_map_to_list in Hkv. simpl.
    unfold get at 2. rewrite Hkv. by apply Hall.
Qed.

(** X19: [matches] looks at the keys of the pattern only, and reads them
    with [obj[key]], which also finds the members every object inherits.
    So the empty pattern matches every object; an object that matches a
    pattern matches every pattern with fewer keys; and a pattern that asks
    for [undefined] under a key the object lacks matches unless the key
    names an inherited member, such as [toString]. *)
Theorem X19_matches_by_pattern_keys (obj spec spec' : gmap string js_value) (k : string) :
  matches obj ∅ = true ∧
  (spec' ⊆ spec → matches obj spec = true → matches obj spec' = true) ∧
  (obj !! k = None →
   matches obj {[k := VUndefined]} = negb (bool_decide (k ∈ object_prototype_names))).
Proof.
  split; [|split].
  - apply matches_lookup. intros k0 v Hk. by rewrite lookup_empty in Hk.
  - intros Hsub Hm. apply matches_lookup. intros k0 v Hk.
    apply (proj1 (matches_lookup obj spec) Hm).
    by apply (lookup_weaken spec' spec).
  - intros Hnone. unfold matches. rewrite map_to_list_singleton. simpl.
    unfold get. rewrite Hnone, lookup_singleton_eq.
    by destruct (bool_decide (k ∈ object_prototype_names)).
Qed.

(** X20: [matches] uses [===], so a value that is [NaN] equals nothing: an
    object with a [NaN] property does not match itself. *)
Theorem X20_matches_not_reflexive_on_NaN (obj : gmap string js_value) (k : string)
    (x : float) :
  obj !! k = Some (VNum x) →
  PrimFloat.is_nan x = true →
  matches obj obj = false.
Proof.
  intros Hk Hnan. apply not_true_is_false. intros Hm.
  pose proof (proj1 (matches_lookup obj obj) Hm k (VNum x) Hk) as Heq.
  unfold get in Heq. rewrite Hk in Heq. simpl in Heq.
  unfold PrimFloat.is_nan in Hnan. rewrite Heq in Hnan. discriminate.
Qed.

(** X21: the assertion [to have item satisfying] passes exactly when some
    item of the array matches the pattern, and its negation exactly when
    none does: on every input one of the two passes and the other throws.
    On the empty array the plain form always throws. *)
Theorem X21_assertion_and_negation (subject : list (gmap string js_value))
    (spec : gmap string js_value) :
  (have_item_satisfying false subject spec = Normal tt ↔
   ∃ item, item ∈ subject ∧ matches item spec = true) ∧
  (have_item_satisfying true subject spec = Normal tt ↔
   ¬ ∃ item, item ∈ subject ∧ matches item spec = true) ∧
  (have_item_satisfying false subject spec = Normal tt ↔
   have_item_satisfying true subject spec ≠ Normal tt) ∧
  have_item_satisfying false [] spec ≠ Normal tt.
Proof.
  assert (Hany : existsb (λ item, matches item spec) subject = true ↔
                 ∃ item, item ∈ subject ∧ matches item spec = true).
  { rewrite existsb_exists. split; intros (item & Hin & Hm); exists item;
      (split; [by apply list_elem_of_In|exact Hm]). }
  unfold have_item_satisfying.
  destruct (existsb (λ item, matches item spec) subject) eqn:Hex; simpl.
  - repeat split; try done.
    + intros _. by apply Hany.
    + intros Hnone. destruct Hnone. by apply Hany.
  - repeat split; try done.
    + intros Hsome. apply Hany in Hsome. discriminate.
    + intros _ Hsome. apply Hany in Hsome. discriminate.
Qed.

(** ** The further properties on the test double *)

(** After [SoundNotFound], a [play] still reaches the engine. *)
Lemma X3_nothing_delivered_after_error_witness :
  let st := sending [onError SoundNotFound] demo_state in
  let st' := (commandExecutor (cmd_action_on "sound1" "play") st).1 in
  terminated (sent st) = true ∧
  calls st' = [PauseAll; Method 1 "play"] ∧
  delivered (sent st') = [onError SoundNotFound].
Proof.
  intros st st'.
  assert (Hmethod : truthy_string (cmd_action (cmd_action_on "sound1" "play")) = true →
                    has_method 1 (default EmptyString
                                    (cmd_action (cmd_action_on "sound1" "play")))).
  { intros _ e. eexists. reflexivity. }
  pose proof (X3_nothing_delivered_after_error (cmd_action_on "sound1" "play") st
                "sound1" 1 eq_refl eq_refl ltac:(discriminate) eq_refl Hmethod) as Hw.
  cbv zeta in Hw. destruct Hw as (_ & _ & Hcalls & _ & Hdelivered).
  split; [reflexivity|]. subst st'. rewrite Hcalls, Hdelivered.
  split; vm_compute; reflexivity.
Defined.

(** A seek and an action the handle does not have. *)
Lemma X4_unknown_action_throws_midway_witness :
  let command :=
    {| cmd_id := Some "sound1"; cmd_src := None; cmd_action := Some "bogus";
       cmd_position := Some 500%float; cmd_relative := None; cmd_progress := None;
       cmd_volume := Some 80%float; cmd_scope := ScUndefined |} in
  (performCommand command demo_state).2 = Throw (TypeError "bogus is not a function") ∧
  calls (performCommand command demo_state).1 = [SetPosition 1 500].
Proof.
  intros command.
  pose proof (X4_unknown_action_throws_midway command demo_state 1 "bogus"
                eq_refl eq_refl ltac:(discriminate) eq_refl) as Hw.
  cbv zeta in Hw. destruct Hw as (Hperf & _).
  rewrite Hperf. split; [reflexivity|]. vm_compute. reflexivity.
Defined.

(** [position: 0] and [volume: 0]. *)
Lemma X5_falsy_fields_only_report_witness :
  let command :=
    {| cmd_id := Some "sound1"; cmd_src := None; cmd_action := None;
       cmd_position := Some 0%float; cmd_relative := None; cmd_progress := None;
       cmd_volume := Some 0%float; cmd_scope := ScUndefined |} in
  calls (performCommand command demo_state).1 = [] ∧
  engine (performCommand command demo_state).1 = engine demo_state.
Proof.
  intros command.
  rewrite (X5_falsy_fields_only_report command demo_state 1
             eq_refl eq_refl eq_refl eq_refl eq_refl eq_refl).
  split; reflexivity.
Defined.

(** Seek to 500 ms, then 250 ms further. *)
Lemma X6_position_then_relative_witness :
  let command :=
    {| cmd_id := Some "sound1"; cmd_src := None; cmd_action := None;
       cmd_position := Some 500%float; cmd_relative := Some 250%float;
       cmd_progress := None; cmd_volume := None; cmd_scope := ScUndefined |} in
  calls (performCommand command demo_state).1 =
    [SetPosition 1 500; SetPosition 1 (500 + 250)%float].
Proof.
  intros command.
  exact (X6_position_then_relative command demo_state 1 500%float 250%float
           eq_refl eq_refl eq_refl eq_refl eq_refl eq_refl eq_refl eq_refl eq_refl).
Defined.

(** [pause] on the second sound. *)
Lemma X7_pause_all_only_for_play_and_resume_witness :
  ∃ cs, calls (performCommand (cmd_action_on "sound1" "pause") demo_state).1
          = calls demo_state ++ cs ∧
        (PauseAll ∈ cs ↔
         ∃ a, cmd_action (cmd_action_on "sound1" "pause") = Some a ∧
              a ∈ ["play"; "resume"]).
Proof.
  apply (X7_pause_all_only_for_play_and_resume (cmd_action_on "sound1" "pause")
           demo_state 1 eq_refl).
  intros _ e. eexists. reflexivity.
Defined.

(** A third sound is loaded and then played by its identifier. *)
Lemma X8_created_sound_is_addressable_witness :
  (run_commands commandExecutor [cmd_load "c.mp3"; cmd_action_on "sound2" "play"]
     demo_state).2 = Normal tt ∧
  sounds (run_commands commandExecutor [cmd_load "c.mp3"; cmd_action_on "sound2" "play"]
            demo_state).1 !! "sound2" = Some 2.
Proof.
  assert (Hmethod : truthy_string (cmd_action (cmd_action_on "sound2" "play")) = true →
                    has_method 2 (default EmptyString
                                    (cmd_action (cmd_action_on "sound2" "play")))).
  { intros _ e. eexists. reflexivity. }
  pose proof (X8_created_sound_is_addressable (cmd_load "c.mp3")
                (cmd_action_on "sound2" "play") demo_state "c.mp3" "sound2" _ 2
                eq_refl eq_refl ltac:(discriminate) eq_refl eq_refl ltac:(discriminate)
                eq_refl Hmethod) as Hw.
  cbv zeta in Hw. destruct Hw as (Hrun & Hlook & _).
  rewrite Hrun. split; [reflexivity|exact Hlook].
Defined.

(** A load command that also asks to play. *)
Lemma X9_creation_ignores_other_fields_witness :
  let command :=
    {| cmd_id := None; cmd_src := Some "c.mp3"; cmd_action := Some "play";
       cmd_position := Some 500%float; cmd_relative := None; cmd_progress := None;
       cmd_volume := Some 80%float; cmd_scope := ScUndefined |} in
  createSound command demo_state = createSound (cmd_load "c.mp3") demo_state ∧
  calls (createSound command demo_state).1 = [CreateSound "c.mp3" false true].
Proof.
  intros command.
  pose proof (X9_creation_ignores_other_fields command (cmd_load "c.mp3") demo_state
                eq_refl eq_refl) as (Hsame & _).
  split; [exact Hsame|]. vm_compute. reflexivity.
Defined.

(** [resumeAll], which the test double does not have. *)
Lemma X11_unknown_global_action_throws_witness :
  commandExecutor_global performCommand createSound (cmd_global "resumeAll") demo_state
  = (demo_state, Throw (TypeError "resumeAll is not a function")).
Proof.
  exact (X11_unknown_global_action_throws performCommand createSound
           (cmd_global "resumeAll") demo_state "resumeAll"
           eq_refl eq_refl ltac:(discriminate) eq_refl).
Defined.

(** The labels [x], [y] against [y], [x], [x]. *)
Lemma X12_nested_isolation_order_irrelevant_witness :
  let source := events_of (sent (performCommand cmd_all_fields demo_state).1) in
  isolateSource_nested source ["x"; "y"] = isolateSource_nested source ["y"; "x"; "x"].
Proof.
  intros source.
  refine (proj1 (X12_nested_isolation_order_irrelevant source ["x"; "y"] ["y"; "x"; "x"] _)).
  intros s. rewrite !elem_of_cons, !elem_of_nil. tauto.
Defined.

(** Two commands through the sinks isolated to [x] and then [y]. *)
Lemma X13_nested_sink_appends_in_order_witness :
  length (isolateSink_nested [cmd_load "a.mp3"; cmd_empty] ["x"; "y"]) = 2%nat ∧
  cmd_scope <$> isolateSink_nested [cmd_load "a.mp3"; cmd_empty] ["x"; "y"] !! 0%nat
    = Some (ScArray ["x"; "y"]).
Proof.
  pose proof (X13_nested_sink_appends_in_order [cmd_load "a.mp3"; cmd_empty] ["x"; "y"]
                0 (cmd_load "a.mp3") eq_refl) as (Hlen & cmd' & Hlook & Hfields).
  split; [exact Hlen|]. rewrite Hlook. simpl. f_equal.
  apply Hfields; [reflexivity|discriminate].
Defined.


(** A load command through the sink [x], on an engine that makes no sound. *)
Lemma X15_failed_creation_stays_in_scope_witness :
  let st1 := (createSound (scoped "x" (cmd_load "a.mp3")) (fake_init false)).1 in
  new_events (fake_init false) st1 = [ErrorEvent None (ScArray ["x"]) "a.mp3"] ∧
  isolateSource (new_events (fake_init false) st1) "x" = new_events (fake_init false) st1.
Proof.
  intros st1.
  pose proof (X15_failed_creation_stays_in_scope (cmd_load "a.mp3") (fake_init false)
                "a.mp3" "x" _ [] (or_intror (conj eq_refl eq_refl)) eq_refl
                ltac:(discriminate) eq_refl) as Hw.
  cbv zeta in Hw. destruct Hw as (Hnew & Hsame & _).
  split; [exact Hnew|exact Hsame].
Defined.

(** The older build on an engine that makes no sound. *)
Lemma X16_lib_failed_creation_throws_witness :
  ∃ msg, lib_commandExecutor (cmd_load "a.mp3") (fake_init false) =
    ({| engine := engine (fake_init false); sounds := ∅; tags := ∅; sent := [];
        calls := [CreateSound "a.mp3" false true] |}, Throw (TypeError msg)).
Proof.
  pose proof (X16_lib_failed_creation_throws (cmd_load "a.mp3") (fake_init false)
                "a.mp3" _ eq_refl eq_refl ltac:(discriminate) eq_refl) as Hw.
  cbv zeta in Hw. destruct Hw as (msg & _ & Hexec).
  exists msg. exact Hexec.
Defined.

(** A pattern with a [NaN] volume. *)
Lemma X20_matches_not_reflexive_on_NaN_witness :
  matches (<["volume" := VNum PrimFloat.nan]> ∅) (<["volume" := VNum PrimFloat.nan]> ∅)
  = false.
Proof.
  exact (X20_matches_not_reflexive_on_NaN (<["volume" := VNum PrimFloat.nan]> ∅)
           "volume" PrimFloat.nan eq_refl eq_refl).
Defined.

Section Rebootable.
Local Existing Instance reb_Engine.

(** A sound is loaded, the observable is disposed, the sound is played. *)
Lemma X17_lib_dispose_forgets_every_sound_witness :
  let st := (lib_commandExecutor (cmd_load "a.mp3") reb_init).1 in
  let st1 := (lib_dispose st).1 in
  sounds st !! "sound0" = Some 0 ∧
  sounds st1 = ∅ ∧
  lib_commandExecutor (cmd_action_on "sound0" "play") st1
    = (sending [onError SoundNotFound] st1, Normal tt).
Proof.
  intros st st1.
  pose proof (X17_lib_dispose_forgets_every_sound (cmd_action_on "sound0" "play") st
                "sound0" _ _ eq_refl eq_refl ltac:(discriminate)
                ltac:(intros Hin; apply (bool_decide_eq_true_2 _) in Hin;
                      vm_compute in Hin; discriminate Hin)) as Hw.
  cbv zeta in Hw. destruct Hw as (_ & Hempty & _ & _ & Hexec).
  split; [reflexivity|]. split; [exact Hempty|exact Hexec].
Defined.

End Rebootable.
